(** * json_ast.py: the AST-to-dictionary walker [DictWalker]

    A shallow embedding of [src/json_ast.py].  The program walks a tree of
    Python [ast] objects and builds nested dictionaries; it keeps a
    process-wide set [missing] of the class names that had no [visit_*]
    method and prints diagnostics on standard output.

    Python is dynamically typed, so the embedding has one type of Python
    values, attribute access that can raise [AttributeError], and a monad
    threading the global set and standard output and carrying exceptions.
    The recursion of [visit] is bounded as the Python call stack bounds
    it: the fuel argument bounds the nesting of the calls of [self.visit]
    (each of them takes a few frames of the interpreter, so the fuel is
    not a number of frames), and running out of it is Python's
    [RecursionError]. *)

From Stdlib Require Import ZArith String Ascii HexString.
From stdpp Require Import base gmap strings list.

Local Open Scope string_scope.
Local Open Scope list_scope.

#[local] Set Warnings "-clear-no-such-hyp".

(** ** Python values *)

(** The values that reach the walker: constants, lists, dictionaries with
    string keys (in insertion order, as Python keeps them) and [ast]
    objects.  An [ast] object has a class name, an identity (CPython's
    [id], the address that the default [repr] prints), its fields in
    [_fields] order and its attributes ([lineno] and the like). *)
Unset Elimination Schemes.
Inductive value : Type :=
| VNone
| VEllipsis
| VBool (b : bool)
| VInt (z : Z)
| VFloat (bits : Z)
| VStr (s : string)
| VBytes (b : list Z)
| VList (l : list value)
| VDict (d : list (string * value))
| VAst (n : node)
with node : Type :=
| Node (cls : string) (addr : N)
       (fields : list (string * value)) (attrs : list (string * value)).
Set Elimination Schemes.

Definition dict : Type := list (string * value).

Definition cls (n : node) : string := let 'Node c _ _ _ := n in c.
Definition addr (n : node) : N := let 'Node _ a _ _ := n in a.
Definition fields (n : node) : dict := let 'Node _ _ f _ := n in f.
Definition attrs (n : node) : dict := let 'Node _ _ _ a := n in a.

(** ** Dictionaries *)

Fixpoint assoc {A : Type} (k : string) (d : list (string * A)) : option A :=
  match d with
  | [] => None
  | (k', v) :: d' => if String.eqb k k' then Some v else assoc k d'
  end.

Definition keys {A : Type} (d : list (string * A)) : list string := map fst d.

(** [d[k] = v]: an existing key keeps its place, a new key goes last. *)
Fixpoint dict_set (d : dict) (k : string) (v : value) : dict :=
  match d with
  | [] => [(k, v)]
  | (k', v') :: d' =>
      if String.eqb k k' then (k, v) :: d' else (k', v') :: dict_set d' k v
  end.

(** [a | b]: a copy of [a] updated with the items of [b]. *)
Definition dict_or (a b : dict) : dict :=
  fold_left (fun d kv => dict_set d kv.1 kv.2) b a.

(** ** Exceptions, global state, and the monad *)

Inductive exn : Type :=
| AttributeError (name : string)
| TypeError (msg : string)
| RecursionError.

(** The module-level [missing] set and the lines printed on [sys.stdout]
    (most recent last). *)
Record state : Type := State {
  missing : gset string;
  stdout : list string
}.

Inductive result (A : Type) : Type :=
| Ok (a : A)
| Raise (e : exn).
Arguments Ok {A} a.
Arguments Raise {A} e.

Definition M (A : Type) : Type := state -> result (A * state).

Definition ret {A : Type} (a : A) : M A := fun st => Ok (a, st).

Definition raise {A : Type} (e : exn) : M A := fun _ => Raise e.

Definition bind {A B : Type} (m : M A) (f : A -> M B) : M B :=
  fun st =>
    match m st with
    | Ok (a, st') => f a st'
    | Raise e => Raise e
    end.

Notation "'let*' x ':=' m 'in' k" := (bind m (fun x => k))
  (at level 10, x name, m at level 200, k at level 200).
Notation "m ';;;' k" := (bind m (fun _ => k))
  (at level 100, k at level 200, right associativity).
Notation "f '=<<' m" := (bind m f)
  (at level 66, right associativity, only parsing).

Fixpoint mapM {A B : Type} (f : A -> M B) (l : list A) : M (list B) :=
  match l with
  | [] => ret []
  | x :: l' => let* y := f x in let* ys := mapM f l' in ret (y :: ys)
  end.

Fixpoint forM_ {A : Type} (l : list A) (f : A -> M unit) : M unit :=
  match l with
  | [] => ret tt
  | x :: l' => f x ;;; forM_ l' f
  end.

(** [missing.add(name)] *)
Definition missing_add (name : string) : M unit :=
  fun st => Ok (tt, State ({[ name ]} ∪ missing st) (stdout st)).

(** [print(line)] *)
Definition print (line : string) : M unit :=
  fun st => Ok (tt, State (missing st) (stdout st ++ [line])%list).

(** ** Attribute access and iteration *)

(** [node.name]: fields first, then attributes. *)
Definition getattr (n : node) (name : string) : M value :=
  match assoc name (fields n ++ attrs n)%list with
  | Some v => ret v
  | None => raise (AttributeError name)
  end.

Definition hasattr (n : node) (name : string) : bool :=
  match assoc name (fields n ++ attrs n)%list with
  | Some _ => true
  | None => false
  end.

Fixpoint chars (s : string) : list value :=
  match s with
  | EmptyString => []
  | String c s' => VStr (String c EmptyString) :: chars s'
  end.

(** [iter(v)]: what a [for] loop, [map] or a comprehension runs over. *)
Definition iter (v : value) : M (list value) :=
  match v with
  | VList l => ret l
  | VStr s => ret (chars s)
  | VBytes b => ret (map VInt b)
  | VDict d => ret (map VStr (keys d))
  | _ => raise (TypeError "object is not iterable")
  end.

(** [str(node)]: [ast] classes keep [object.__repr__]. *)
Definition str (n : node) : string :=
  "<ast." +:+ cls n +:+ " object at " +:+ HexString.of_N (addr n) +:+ ">".

(** ** The walker *)

(** [self.visit], as the methods see it. *)
Definition visitor : Type := value -> M dict.

Definition is_none (v : value) : bool :=
  match v with VNone => true | _ => false end.

(** [self.visit(x)], stored as a value. *)
Definition visit_value (visit : visitor) (x : value) : M value :=
  let* d := visit x in ret (VDict d).

(** [self.visit(x) if x is not None else None] *)
Definition visit_optional (visit : visitor) (x : value) : M value :=
  if is_none x then ret VNone else visit_value visit x.

(** [[f(x) for x in xs]] and [list(map(f, xs))] *)
Definition list_map (f : value -> M value) (xs : value) : M value :=
  let* items := iter xs in
  let* rs := mapM f items in
  ret (VList rs).

(** [ast.NodeVisitor.generic_visit]: visit every field that is a node and
    every node in a field that is a list, dropping the results. *)
Definition visit_field (visit : visitor) (fv : string * value) : M unit :=
  match fv.2 with
  | VList l =>
      forM_ l (fun item =>
        match item with
        | VAst _ => visit item ;;; ret tt
        | _ => ret tt
        end)
  | VAst _ => visit fv.2 ;;; ret tt
  | _ => ret tt
  end.

Definition NodeVisitor_generic_visit (visit : visitor) (n : node) : M unit :=
  forM_ (fields n) (visit_field visit).

(** [DictWalker.generic_visit] *)
Definition generic_visit (visit : visitor) (n : node) (just_get_info : bool)
  : M dict :=
  let* info :=
    (if negb just_get_info then
       missing_add (cls n) ;;;
       print ("Unimplemented Node: " +:+ str n) ;;;
       NodeVisitor_generic_visit visit n ;;;
       ret [("type", VStr ("Unimplemented: " +:+ str n))]
     else ret []) in
  let* type_comment :=
    (if hasattr n "type_comment" then getattr n "type_comment"
     else ret VNone) in
  let* lineno := getattr n "lineno" in
  let* col_offset := getattr n "col_offset" in
  let* end_lineno := getattr n "end_lineno" in
  let* end_col_offset := getattr n "end_col_offset" in
  ret (dict_or [("lineno", lineno);
                ("col_offset", col_offset);
                ("end_lineno", end_lineno);
                ("end_col_offset", end_col_offset);
                ("type_comment", type_comment)] info).

(** *** The [visit_*] methods

    Each takes [self.visit] as its first argument; [node.f] is
    [getattr node "f"], and the items of a dictionary display are
    evaluated left to right before the [|] on its right. *)

Definition visit_Module (visit : visitor) (node : node) : M dict :=
  let* body := list_map (visit_value visit) =<< getattr node "body" in
  ret [("type", VStr "Module"); ("body", body)].

Definition visit_Expr (visit : visitor) (node : node) : M dict :=
  let* value := visit_value visit =<< getattr node "value" in
  let* info := generic_visit visit node true in
  ret (dict_or [("type", VStr "Expr"); ("value", value)] info).

Definition visit_Call (visit : visitor) (node : node) : M dict :=
  let* func := visit_value visit =<< getattr node "func" in
  let* args := list_map (visit_value visit) =<< getattr node "args" in
  let* keywords := list_map (visit_value visit) =<< getattr node "keywords" in
  let* info := generic_visit visit node true in
  ret (dict_or [("type", VStr "Call");
                ("func", func);
                ("args", args);
                ("keywords", keywords)] info).

Definition visit_Name (visit : visitor) (node : node) : M dict :=
  let* id := getattr node "id" in
  let* ctx := visit_value visit =<< getattr node "ctx" in
  let* info := generic_visit visit node true in
  ret (dict_or [("type", VStr "Name"); ("id", id); ("ctx", ctx)] info).

Definition visit_Load (visit : visitor) (node : node) : M dict :=
  ret [("type", VStr "Load")].

Definition visit_Constant (visit : visitor) (node : node) : M dict :=
  let* value := getattr node "value" in
  let* kind := getattr node "kind" in
  let* info := generic_visit visit node true in
  ret (dict_or [("type", VStr "Constant");
                ("value", value);
                ("kind", kind)] info).

Definition visit_keyword (visit : visitor) (node : node) : M dict :=
  let* arg := getattr node "arg" in
  let* value := visit_value visit =<< getattr node "value" in
  ret [("type", VStr "keyword"); ("arg", arg); ("value", value)].

Definition visit_Import (visit : visitor) (node : node) : M dict :=
  let* names := list_map (visit_value visit) =<< getattr node "names" in
  let* info := generic_visit visit node true in
  ret (dict_or [("type", VStr "Import"); ("names", names)] info).

Definition visit_alias (visit : visitor) (node : node) : M dict :=
  let* name := getattr node "name" in
  let* asname := getattr node "asname" in
  let* info := generic_visit visit node true in
  ret (dict_or [("type", VStr "alias");
                ("name", name);
                ("asname", asname)] info).

Definition visit_ImportFrom (visit : visitor) (node : node) : M dict :=
  let* module := getattr node "module" in
  let* names := list_map (visit_value visit) =<< getattr node "names" in
  let* level := getattr node "level" in
  let* info := generic_visit visit node true in
  ret (dict_or [("type", VStr "ImportFrom");
                ("module", module);
                ("names", names);
                ("level", level)] info).

Definition visit_ClassDef (visit : visitor) (node : node) : M dict :=
  let* name := getattr node "name" in
  let* bases := list_map (visit_value visit) =<< getattr node "bases" in
  let* keywords := list_map (visit_value visit) =<< getattr node "keywords" in
  let* body := list_map (visit_value visit) =<< getattr node "body" in
  let* decorator_list :=
    list_map (visit_value visit) =<< getattr node "decorator_list" in
  let* info := generic_visit visit node true in
  ret (dict_or [("type", VStr "ClassDef");
                ("name", name);
                ("bases", bases);
                ("keywords", keywords);
                ("body", body);
                ("decorator_list", decorator_list)] info).

Definition visit_Attribute (visit : visitor) (node : node) : M dict :=
  let* value := visit_value visit =<< getattr node "value" in
  let* attr := getattr node "attr" in
  let* ctx := visit_value visit =<< getattr node "ctx" in
  let* info := generic_visit visit node true in
  ret (dict_or [("type", VStr "Attribute");
                ("value", value);
                ("attr", attr);
                ("ctx", ctx)] info).

Definition visit_Store (visit : visitor) (node : node) : M dict :=
  ret [("type", VStr "Store")].

Definition visit_BitOr (visit : visitor) (node : node) : M dict :=
  ret [("type", VStr "BitOr")].

Definition visit_arguments (visit : visitor) (node : node) : M dict :=
  let* posonlyargs :=
    list_map (visit_value visit) =<< getattr node "posonlyargs" in
  let* args := list_map (visit_value visit) =<< getattr node "args" in
  let* vararg := visit_optional visit =<< getattr node "vararg" in
  let* kwonlyargs :=
    list_map (visit_value visit) =<< getattr node "kwonlyargs" in
  let* kw_defaults :=
    list_map (visit_optional visit) =<< getattr node "kw_defaults" in
  let* kwarg := visit_optional visit =<< getattr node "kwarg" in
  let* defaults := list_map (visit_value visit) =<< getattr node "defaults" in
  ret [("type", VStr "arguments");
       ("posonlyargs", posonlyargs);
       ("args", args);
       ("vararg", vararg);
       ("kwonlyargs", kwonlyargs);
       ("kw_defaults", kw_defaults);
       ("kwarg", kwarg);
       ("defaults", defaults)].

Definition visit_Not (visit : visitor) (node : node) : M dict :=
  ret [("type", VStr "Not")].

Definition visit_comprehension (visit : visitor) (node : node) : M dict :=
  let* target := visit_value visit =<< getattr node "target" in
  let* iter := visit_value visit =<< getattr node "iter" in
  let* ifs := list_map (visit_value visit) =<< getattr node "ifs" in
  let* is_async := getattr node "is_async" in
  ret [("type", VStr "comprehension");
       ("target", target);
       ("iter", iter);
       ("ifs", ifs);
       ("is_async", is_async)].

Definition visit_IsNot (visit : visitor) (node : node) : M dict :=
  ret [("type", VStr "IsNot")].

Definition visit_Eq (visit : visitor) (node : node) : M dict :=
  ret [("type", VStr "Eq")].

Definition visit_withitem (visit : visitor) (node : node) : M dict :=
  let* context_expr := visit_value visit =<< getattr node "context_expr" in
  let* optional_vars :=
    visit_optional visit =<< getattr node "optional_vars" in
  ret [("type", VStr "withitem");
       ("context_expr", context_expr);
       ("optional_vars", optional_vars)].

Definition visit_Add (visit : visitor) (node : node) : M dict :=
  ret [("type", VStr "Add")].

Definition visit_Subscript (visit : visitor) (node : node) : M dict :=
  let* value := visit_value visit =<< getattr node "value" in
  let* slice := visit_value visit =<< getattr node "slice" in
  let* ctx := visit_value visit =<< getattr node "ctx" in
  let* info := generic_visit visit node true in
  ret (dict_or [("type", VStr "Subscript");
                ("value", value);
                ("slice", slice);
                ("ctx", ctx)] info).

Definition visit_BinOp (visit : visitor) (node : node) : M dict :=
  let* left := visit_value visit =<< getattr node "left" in
  let* op := visit_value visit =<< getattr node "op" in
  let* right := visit_value visit =<< getattr node "right" in
  let* info := generic_visit visit node true in
  ret (dict_or [("type", VStr "BinOp");
                ("left", left);
                ("op", op);
                ("right", right)] info).

Definition visit_With (visit : visitor) (node : node) : M dict :=
  let* items := list_map (visit_value visit) =<< getattr node "items" in
  let* body := list_map (visit_value visit) =<< getattr node "body" in
  let* info := generic_visit visit node true in
  ret (dict_or [("type", VStr "With"); ("items", items); ("body", body)] info).

Definition visit_Assign (visit : visitor) (node : node) : M dict :=
  let* targets := list_map (visit_value visit) =<< getattr node "targets" in
  let* value := visit_value visit =<< getattr node "value" in
  let* info := generic_visit visit node true in
  ret (dict_or [("type", VStr "Assign");
                ("targets", targets);
                ("value", value)] info).

Definition visit_Dict (visit : visitor) (node : node) : M dict :=
  let* keys := list_map (visit_optional visit) =<< getattr node "keys" in
  let* values := list_map (visit_value visit) =<< getattr node "values" in
  let* info := generic_visit visit node true in
  ret (dict_or [("type", VStr "Dict"); ("keys", keys); ("values", values)] info).

Definition visit_arg (visit : visitor) (node : node) : M dict :=
  let* arg := getattr node "arg" in
  let* annotation := visit_optional visit =<< getattr node "annotation" in
  let* info := generic_visit visit node true in
  ret (dict_or [("type", VStr "arg");
                ("arg", arg);
                ("annotation", annotation)] info).

Definition visit_Return (visit : visitor) (node : node) : M dict :=
  let* value := visit_optional visit =<< getattr node "value" in
  let* info := generic_visit visit node true in
  ret (dict_or [("type", VStr "Return"); ("value", value)] info).

Definition visit_FunctionDef (visit : visitor) (node : node) : M dict :=
  let* name := getattr node "name" in
  let* args := visit_value visit =<< getattr node "args" in
  let* body := list_map (visit_value visit) =<< getattr node "body" in
  let* decorator_list :=
    list_map (visit_value visit) =<< getattr node "decorator_list" in
  let* returns := visit_optional visit =<< getattr node "returns" in
  let* info := generic_visit visit node true in
  ret (dict_or [("type", VStr "FunctionDef");
                ("name", name);
                ("args", args);
                ("body", body);
                ("decorator_list", decorator_list);
                ("return", returns)] info).

Definition visit_ListComp (visit : visitor) (node : node) : M dict :=
  let* elt := visit_value visit =<< getattr node "elt" in
  let* generators :=
    list_map (visit_value visit) =<< getattr node "generators" in
  let* info := generic_visit visit node true in
  ret (dict_or [("type", VStr "ListComp");
                ("elt", elt);
                ("generators", generators)] info).

Definition visit_UnaryOp (visit : visitor) (node : node) : M dict :=
  let* op := visit_value visit =<< getattr node "op" in
  let* operand := visit_value visit =<< getattr node "operand" in
  let* info := generic_visit visit node true in
  ret (dict_or [("type", VStr "UnaryOp");
                ("op", op);
                ("operand", operand)] info).

Definition visit_Compare (visit : visitor) (node : node) : M dict :=
  let* ops := list_map (visit_value visit) =<< getattr node "ops" in
  let* comparators :=
    list_map (visit_value visit) =<< getattr node "comparators" in
  let* info := generic_visit visit node true in
  ret (dict_or [("type", VStr "Compare");
                ("ops", ops);
                ("comparators", comparators)] info).

Definition visit_IfExp (visit : visitor) (node : node) : M dict :=
  let* test := visit_value visit =<< getattr node "test" in
  let* body := visit_value visit =<< getattr node "body" in
  let* orelse := visit_value visit =<< getattr node "orelse" in
  let* info := generic_visit visit node true in
  ret (dict_or [("type", VStr "IfExp");
                ("test", test);
                ("body", body);
                ("orelse", orelse)] info).

Definition visit_JoinedStr (visit : visitor) (node : node) : M dict :=
  let* values := list_map (visit_value visit) =<< getattr node "values" in
  let* info := generic_visit visit node true in
  ret (dict_or [("type", VStr "JoinedStr"); ("values", values)] info).

Definition visit_Tuple (visit : visitor) (node : node) : M dict :=
  let* elts := list_map (visit_value visit) =<< getattr node "elts" in
  let* ctx := visit_value visit =<< getattr node "ctx" in
  let* info := generic_visit visit node true in
  ret (dict_or [("type", VStr "Tuple"); ("elts", elts); ("ctx", ctx)] info).

Definition visit_FormattedValue (visit : visitor) (node : node) : M dict :=
  let* value := visit_value visit =<< getattr node "value" in
  let* conversion := getattr node "conversion" in
  let* format_spec := visit_optional visit =<< getattr node "format_spec" in
  let* info := generic_visit visit node true in
  ret (dict_or [("type", VStr "FormattedValue");
                ("value", value);
                ("conversion", conversion);
                ("format_spec", format_spec)] info).

Definition visit_For (visit : visitor) (node : node) : M dict :=
  let* target := visit_value visit =<< getattr node "target" in
  let* iter := visit_value visit =<< getattr node "iter" in
  let* body := list_map (visit_value visit) =<< getattr node "body" in
  let* orelse := list_map (visit_value visit) =<< getattr node "orelse" in
  let* info := generic_visit visit node true in
  ret (dict_or [("type", VStr "For");
                ("target", target);
                ("iter", iter);
                ("body", body);
                ("orelse", orelse)] info).

Definition visit_If (visit : visitor) (node : node) : M dict :=
  let* test := visit_value visit =<< getattr node "test" in
  let* body := list_map (visit_value visit) =<< getattr node "body" in
  let* orelse := list_map (visit_value visit) =<< getattr node "orelse" in
  let* info := generic_visit visit node true in
  ret (dict_or [("type", VStr "If");
                ("test", test);
                ("body", body);
                ("orelse", orelse)] info).

(** The [visit_*] methods of the class, by the class name they serve. *)
Definition method : Type := visitor -> node -> M dict.

Definition DictWalker : list (string * method) :=
  [("Module", visit_Module); ("Expr", visit_Expr); ("Call", visit_Call);
   ("Name", visit_Name); ("Load", visit_Load); ("Constant", visit_Constant);
   ("keyword", visit_keyword); ("Import", visit_Import);
   ("alias", visit_alias); ("ImportFrom", visit_ImportFrom);
   ("ClassDef", visit_ClassDef); ("Attribute", visit_Attribute);
   ("Store", visit_Store); ("BitOr", visit_BitOr);
   ("arguments", visit_arguments); ("Not", visit_Not);
   ("comprehension", visit_comprehension); ("IsNot", visit_IsNot);
   ("Eq", visit_Eq); ("withitem", visit_withitem); ("Add", visit_Add);
   ("Subscript", visit_Subscript); ("BinOp", visit_BinOp);
   ("With", visit_With); ("Assign", visit_Assign); ("Dict", visit_Dict);
   ("arg", visit_arg); ("Return", visit_Return);
   ("FunctionDef", visit_FunctionDef); ("ListComp", visit_ListComp);
   ("UnaryOp", visit_UnaryOp); ("Compare", visit_Compare);
   ("IfExp", visit_IfExp); ("JoinedStr", visit_JoinedStr);
   ("Tuple", visit_Tuple); ("FormattedValue", visit_FormattedValue);
   ("For", visit_For); ("If", visit_If)].

Definition has_converter (kind : string) : bool :=
  match assoc kind DictWalker with Some _ => true | None => false end.

(** [ast.NodeVisitor.visit]: [getattr(self, 'visit_' + class name,
    self.generic_visit)(node)].  A value that is not an [ast] object has no
    [visit_*] method either, and the fallback's child enumeration raises on
    its missing [_fields]. *)
Fixpoint visit (depth : nat) (x : value) : M dict :=
  match depth with
  | O => raise RecursionError
  | S depth' =>
      match x with
      | VAst n =>
          match assoc (cls n) DictWalker with
          | Some visit_method => visit_method (visit depth') n
          | None => generic_visit (visit depth') n false
          end
      | _ => raise (AttributeError "_fields")
      end
  end.

(** The end-of-run loop [for missing in missing: print(missing)]: one line
    per element of the set. *)
Definition report (st : state) : list string := elements (missing st).

Definition initial : state := State ∅ [].

(** ** The shape of the [visit_*] methods

    Every method reads some attributes of the node, each in one of five
    ways, puts them in a dictionary after ["type"], and either merges the
    info-only [generic_visit] in or does not.  The table [shapes] records
    this for each method; [run_shape] interprets a row, and
    [DictWalker_shapes] shows that the table is the class. *)

Inductive access : Type :=
| Raw      (* node.f *)
| One      (* self.visit(node.f) *)
| Opt      (* self.visit(node.f) if node.f is not None else None *)
| Seq      (* [self.visit(x) for x in node.f] *)
| SeqOpt.  (* [self.visit(x) if x is not None else None for x in node.f] *)

Definition read (visit : visitor) (n : node) (a : access) (f : string)
  : M value :=
  match a with
  | Raw => getattr n f
  | One => visit_value visit =<< getattr n f
  | Opt => visit_optional visit =<< getattr n f
  | Seq => list_map (visit_value visit) =<< getattr n f
  | SeqOpt => list_map (visit_optional visit) =<< getattr n f
  end.

(** An entry is (output key, access, attribute read). *)
Definition entry : Type := string * access * string.

Record shape : Type := Shape {
  entries : list entry;
  merges : bool
}.

Fixpoint read_entries (visit : visitor) (n : node) (es : list entry)
    (acc : dict) (k : dict -> M dict) : M dict :=
  match es with
  | [] => k acc
  | (key, a, f) :: es' =>
      let* v := read visit n a f in
      read_entries visit n es' (acc ++ [(key, v)])%list k
  end.

Definition run_shape (kind : string) (sh : shape) : method :=
  fun visit n =>
    read_entries visit n (entries sh) [("type", VStr kind)]
      (fun own =>
         if merges sh
         then let* info := generic_visit visit n true in ret (dict_or own info)
         else ret own).

Definition same (f : string) (a : access) : entry := (f, a, f).

Definition shapes : list (string * shape) :=
  [("Module", Shape [same "body" Seq] false);
   ("Expr", Shape [same "value" One] true);
   ("Call", Shape [same "func" One; same "args" Seq; same "keywords" Seq] true);
   ("Name", Shape [same "id" Raw; same "ctx" One] true);
   ("Load", Shape [] false);
   ("Constant", Shape [same "value" Raw; same "kind" Raw] true);
   ("keyword", Shape [same "arg" Raw; same "value" One] false);
   ("Import", Shape [same "names" Seq] true);
   ("alias", Shape [same "name" Raw; same "asname" Raw] true);
   ("ImportFrom",
    Shape [same "module" Raw; same "names" Seq; same "level" Raw] true);
   ("ClassDef",
    Shape [same "name" Raw; same "bases" Seq; same "keywords" Seq;
           same "body" Seq; same "decorator_list" Seq] true);
   ("Attribute", Shape [same "value" One; same "attr" Raw; same "ctx" One] true);
   ("Store", Shape [] false);
   ("BitOr", Shape [] false);
   ("arguments",
    Shape [same "posonlyargs" Seq; same "args" Seq; same "vararg" Opt;
           same "kwonlyargs" Seq; same "kw_defaults" SeqOpt;
           same "kwarg" Opt; same "defaults" Seq] false);
   ("Not", Shape [] false);
   ("comprehension",
    Shape [same "target" One; same "iter" One; same "ifs" Seq;
           same "is_async" Raw] false);
   ("IsNot", Shape [] false);
   ("Eq", Shape [] false);
   ("withitem", Shape [same "context_expr" One; same "optional_vars" Opt] false);
   ("Add", Shape [] false);
   ("Subscript", Shape [same "value" One; same "slice" One; same "ctx" One] true);
   ("BinOp", Shape [same "left" One; same "op" One; same "right" One] true);
   ("With", Shape [same "items" Seq; same "body" Seq] true);
   ("Assign", Shape [same "targets" Seq; same "value" One] true);
   ("Dict", Shape [same "keys" SeqOpt; same "values" Seq] true);
   ("arg", Shape [same "arg" Raw; same "annotation" Opt] true);
   ("Return", Shape [same "value" Opt] true);
   ("FunctionDef",
    Shape [same "name" Raw; same "args" One; same "body" Seq;
           same "decorator_list" Seq; ("return", Opt, "returns")] true);
   ("ListComp", Shape [same "elt" One; same "generators" Seq] true);
   ("UnaryOp", Shape [same "op" One; same "operand" One] true);
   ("Compare", Shape [same "ops" Seq; same "comparators" Seq] true);
   ("IfExp", Shape [same "test" One; same "body" One; same "orelse" One] true);
   ("JoinedStr", Shape [same "values" Seq] true);
   ("Tuple", Shape [same "elts" Seq; same "ctx" One] true);
   ("FormattedValue",
    Shape [same "value" One; same "conversion" Raw; same "format_spec" Opt]
          true);
   ("For",
    Shape [same "target" One; same "iter" One; same "body" Seq;
           same "orelse" Seq] true);
   ("If", Shape [same "test" One; same "body" Seq; same "orelse" Seq] true)].

(** ** Specification-side definitions *)

(** The specification's PositionExtractor, written from its words: it
    reads the four location attributes and the optional type comment off a
    node; it is pure and does not recurse. *)
Definition attribute (n : node) (name : string) : result value :=
  match assoc name (fields n ++ attrs n)%list with
  | Some v => Ok v
  | None => Raise (AttributeError name)
  end.

Definition position_extractor (n : node) : result dict :=
  match attribute n "lineno" with
  | Raise e => Raise e
  | Ok lineno =>
  match attribute n "col_offset" with
  | Raise e => Raise e
  | Ok col_offset =>
  match attribute n "end_lineno" with
  | Raise e => Raise e
  | Ok end_lineno =>
  match attribute n "end_col_offset" with
  | Raise e => Raise e
  | Ok end_col_offset =>
      Ok [("lineno", lineno);
          ("col_offset", col_offset);
          ("end_lineno", end_lineno);
          ("end_col_offset", end_col_offset);
          ("type_comment",
           default VNone (assoc "type_comment" (fields n ++ attrs n)%list))]
  end end end end.

Definition position_keys : list string :=
  ["lineno"; "col_offset"; "end_lineno"; "end_col_offset"; "type_comment"].

(** One entry of a shape, read on its own. *)
Definition read_entry (visit : visitor) (n : node) (e : entry)
  : M (string * value) :=
  let* v := read visit n e.1.2 e.2 in ret (e.1.1, v).

(** ** Sample trees

    What [ast.parse] builds for three one-line programs.  Statements and
    expressions carry the four location attributes; modules, expression
    contexts and operators carry none. *)

Definition located (lineno col_offset end_lineno end_col_offset : Z) : dict :=
  [("lineno", VInt lineno);
   ("col_offset", VInt col_offset);
   ("end_lineno", VInt end_lineno);
   ("end_col_offset", VInt end_col_offset)].

Definition ast_Load : value := VAst (Node "Load" 0x7f3a10 [] []).
Definition ast_Store : value := VAst (Node "Store" 0x7f3a40 [] []).

Definition ast_Name (a : N) (id : string) (ctx : value) (at_ : dict) : node :=
  Node "Name" a [("id", VStr id); ("ctx", ctx)] at_.

Definition ast_Constant (a : N) (v : value) (at_ : dict) : node :=
  Node "Constant" a [("value", v); ("kind", VNone)] at_.

(** [x = 1] *)
Definition assign_node : node :=
  Node "Assign" 0x7f4b20
    [("targets", VList [VAst (ast_Name 0x7f4b50 "x" ast_Store
                                       (located 1 0 1 1))]);
     ("value", VAst (ast_Constant 0x7f4b80 (VInt 1) (located 1 4 1 5)));
     ("type_comment", VNone)]
    (located 1 0 1 5).

Definition assign_tree : value :=
  VAst (Node "Module" 0x7f4af0
          [("body", VList [VAst assign_node]); ("type_ignores", VList [])] []).

(** [a - b]: there is no [visit_Sub]. *)
Definition sub_node : node := Node "Sub" 0x7f3b00 [] [].

Definition sub_tree : value :=
  VAst (Node "Module" 0x7f5af0
    [("body", VList [VAst (Node "Expr" 0x7f5b20
        [("value", VAst (Node "BinOp" 0x7f5b50
            [("left", VAst (ast_Name 0x7f5b80 "a" ast_Load (located 1 0 1 1)));
             ("op", VAst sub_node);
             ("right", VAst (ast_Name 0x7f5bb0 "b" ast_Load
                                      (located 1 4 1 5)))]
            (located 1 0 1 5)))]
        (located 1 0 1 5))]);
     ("type_ignores", VList [])] []).

(** [[] == {1}]: there is no [visit_List] and no [visit_Set]. *)
Definition set_node (a : N) : node :=
  Node "Set" a
    [("elts", VList [VAst (ast_Constant 0x7f6c10 (VInt 1) (located 1 7 1 8))])]
    (located 1 6 1 9).

Definition list_node : node :=
  Node "List" 0x7f6b80 [("elts", VList []); ("ctx", ast_Load)]
    (located 1 0 1 2).

Definition compare_node : node :=
  Node "Compare" 0x7f6b50
    [("left", VAst list_node);
     ("ops", VList [VAst (Node "Eq" 0x7f3c00 [] [])]);
     ("comparators", VList [VAst (set_node 0x7f6be0)])]
    (located 1 0 1 9).

Definition compare_tree : value :=
  VAst (Node "Module" 0x7f6af0
    [("body", VList [VAst (Node "Expr" 0x7f6b20
        [("value", VAst compare_node)] (located 1 0 1 9))]);
     ("type_ignores", VList [])] []).

(** The kinds whose method returns its dictionary as it is, without
    merging [self.generic_visit(node, True)] in. *)
Definition bare_kinds : list string :=
  ["Module"; "Load"; "keyword"; "Store"; "BitOr"; "arguments"; "Not";
   "comprehension"; "IsNot"; "Eq"; "withitem"; "Add"].

(** The keys a method fills from the node, after ["type"]. *)
Definition own_keys (kind : string) : list string :=
  match assoc kind shapes with
  | Some sh => map (fun e : entry => e.1.1) (entries sh)
  | None => []
  end.

(** [rs] are the records of visiting [xs] one after the other from left to
    right, taking the state from [st] to [st']. *)
Inductive visited_in_order (visit : visitor)
  : list value -> state -> list value -> state -> Prop :=
| visited_nil (st : state) : visited_in_order visit [] st [] st
| visited_cons (x : value) (xs : list value) (st st1 st2 : state)
      (d : dict) (rs : list value) :
    visit x st = Ok (d, st1) ->
    visited_in_order visit xs st1 rs st2 ->
    visited_in_order visit (x :: xs) st (VDict d :: rs) st2.

(** [Compare] with two operators and one comparator, as no parser builds
    it, and [def f(): pass] without a return annotation. *)
Definition uneven_compare_node : node :=
  Node "Compare" 0x7f7b50
    [("left", VAst (ast_Name 0x7f7b80 "a" ast_Load (located 1 0 1 1)));
     ("ops", VList [VAst (Node "Eq" 0x7f3c00 [] []);
                    VAst (Node "IsNot" 0x7f3c30 [] [])]);
     ("comparators",
      VList [VAst (ast_Name 0x7f7bb0 "b" ast_Load (located 1 5 1 6))])]
    (located 1 0 1 6).

Definition no_arguments : value :=
  VAst (Node "arguments" 0x7f8b80
          [("posonlyargs", VList []); ("args", VList []); ("vararg", VNone);
           ("kwonlyargs", VList []); ("kw_defaults", VList []);
           ("kwarg", VNone); ("defaults", VList [])] []).

Definition functiondef_node (returns : value) : node :=
  Node "FunctionDef" 0x7f8b50
    [("name", VStr "f");
     ("args", no_arguments);
     ("body", VList []);
     ("decorator_list", VList []);
     ("returns", returns);
     ("type_comment", VNone)]
    (located 1 0 1 13).

(** ** The nodes of a tree and the nodes a walk dispatches on *)

(** What [iter] runs over, as a function. *)
Definition items (v : value) : list value :=
  match v with
  | VList l => l
  | VStr s => chars s
  | VBytes b => map VInt b
  | VDict d => map VStr (keys d)
  | _ => []
  end.

(** The values a read hands to [self.visit]. *)
Definition visits_of (a : access) (v : value) : list value :=
  match a with
  | Raw => []
  | One => [v]
  | Opt => if is_none v then [] else [v]
  | Seq => items v
  | SeqOpt => List.filter (fun x => negb (is_none x)) (items v)
  end.

Definition is_ast (v : value) : bool :=
  match v with VAst _ => true | _ => false end.

(** The values [ast.NodeVisitor.generic_visit] visits in one field. *)
Definition field_visits (fv : string * value) : list value :=
  match fv.2 with
  | VList l => List.filter is_ast l
  | VAst _ => [fv.2]
  | _ => []
  end.

Definition entry_visits (n : node) (e : entry) : list value :=
  match assoc e.2 (fields n ++ attrs n) with
  | Some v => visits_of e.1.2 v
  | None => []
  end.

(** The values the method serving [n] hands to [self.visit]: those its
    [visit_*] method reads, or every node among its fields for the
    fallback. *)
Definition children (n : node) : list value :=
  match assoc (cls n) shapes with
  | Some sh => flat_map (entry_visits n) (entries sh)
  | None => flat_map field_visits (fields n)
  end.

(** The nodes [visit] is called on during the walk of [x]. *)
Fixpoint dispatched (depth : nat) (x : value) : list node :=
  match depth, x with
  | S depth', VAst n => n :: flat_map (dispatched depth') (children n)
  | _, _ => []
  end.

(** The kinds without a [visit_*] method among some nodes. *)
Fixpoint unconverted (ns : list node) : gset string :=
  match ns with
  | [] => ∅
  | n :: ns' =>
      if has_converter (cls n) then unconverted ns'
      else {[ cls n ]} ∪ unconverted ns'
  end.

(** Every [ast] object of a tree, fields and attributes alike. *)
Fixpoint all_nodes (v : value) : list node :=
  match v with
  | VList l => flat_map all_nodes l
  | VDict d => flat_map (fun kv => all_nodes kv.2) d
  | VAst n =>
      n :: match n with
           | Node _ _ f a =>
               flat_map (fun kv => all_nodes kv.2) f
               ++ flat_map (fun kv => all_nodes kv.2) a
           end
  | _ => []
  end.

(** ** Two copies of a tree

    Two runs of the program parse the same source into trees that differ
    only in where their objects live.  [forget] erases the identities, so
    [forget x = forget y] says that [x] and [y] are copies of one tree. *)

Fixpoint forget (v : value) : value :=
  match v with
  | VList l => VList (map forget l)
  | VDict d => VDict (map (fun kv => (kv.1, forget kv.2)) d)
  | VAst n =>
      VAst match n with
           | Node c _ f a =>
               Node c 0 (map (fun kv => (kv.1, forget kv.2)) f)
                        (map (fun kv => (kv.1, forget kv.2)) a)
           end
  | _ => v
  end.

Definition forget_dict (d : dict) : dict :=
  map (fun kv => (kv.1, forget kv.2)) d.

Definition forget_node (n : node) : node :=
  Node (cls n) 0 (forget_dict (fields n)) (forget_dict (attrs n)).

(** A value that holds no [ast] object, as [json.dump] needs it. *)
Fixpoint plain (v : value) : bool :=
  match v with
  | VList l => forallb plain l
  | VDict d => forallb (fun kv => plain kv.2) d
  | VAst _ => false
  | _ => true
  end.

(** A walk that never takes the fallback. *)
Definition converted_only (ns : list node) : Prop :=
  Forall (fun n => has_converter (cls n) = true) ns.

(** Induction on values, through the lists and the nodes. *)
Section ValueInduction.

Variable P : value -> Prop.

Hypothesis P_None : P VNone.
Hypothesis P_Ellipsis : P VEllipsis.
Hypothesis P_Bool : forall b, P (VBool b).
Hypothesis P_Int : forall z, P (VInt z).
Hypothesis P_Float : forall bits, P (VFloat bits).
Hypothesis P_Str : forall s, P (VStr s).
Hypothesis P_Bytes : forall b, P (VBytes b).
Hypothesis P_List : forall l, Forall P l -> P (VList l).
Hypothesis P_Dict : forall d, Forall (fun kv => P kv.2) d -> P (VDict d).
Hypothesis P_Ast : forall c i f a,
  Forall (fun kv => P kv.2) f -> Forall (fun kv => P kv.2) a ->
  P (VAst (Node c i f a)).

Fixpoint value_induction (v : value) : P v :=
  let items :=
    fix items (l : list value) : Forall P l :=
      match l with
      | [] => List.Forall_nil P
      | x :: l' => List.Forall_cons P x l' (value_induction x) (items l')
      end in
  let pairs :=
    fix pairs (d : list (string * value)) : Forall (fun kv => P kv.2) d :=
      match d with
      | [] => List.Forall_nil _
      | kv :: d' =>
          List.Forall_cons (fun kv => P kv.2) kv d'
            (let '(_, w) as kv := kv return P kv.2 in value_induction w)
            (pairs d')
      end in
  match v with
  | VNone => P_None
  | VEllipsis => P_Ellipsis
  | VBool b => P_Bool b
  | VInt z => P_Int z
  | VFloat bits => P_Float bits
  | VStr s => P_Str s
  | VBytes b => P_Bytes b
  | VList l => P_List l (items l)
  | VDict d => P_Dict d (pairs d)
  | VAst (Node c i f a) => P_Ast c i f a (pairs f) (pairs a)
  end.

End ValueInduction.

(** [x = 1] as a second run of the program lays it out. *)
Definition assign_tree_again : value :=
  VAst (Node "Module" 0x7e1af0
    [("body",
      VList [VAst (Node "Assign" 0x7e1b20
        [("targets",
          VList [VAst (ast_Name 0x7e1b50 "x"
                         (VAst (Node "Store" 0x7e0a40 [] []))
                         (located 1 0 1 1))]);
         ("value", VAst (ast_Constant 0x7e1b80 (VInt 1) (located 1 4 1 5)));
         ("type_comment", VNone)]
        (located 1 0 1 5))]);
     ("type_ignores", VList [])] []).

(** ** Trees on which the walk returns *)

(** The nesting depth of the [ast] objects of a value. *)
Fixpoint height (v : value) : nat :=
  match v with
  | VList l => foldr (fun x h => Nat.max (height x) h) 0 l
  | VDict d => foldr (fun kv h => Nat.max (height kv.2) h) 0 d
  | VAst (Node _ _ f a) =>
      S (Nat.max (foldr (fun kv h => Nat.max (height kv.2) h) 0 f)
                 (foldr (fun kv h => Nat.max (height kv.2) h) 0 a))
  | _ => 0
  end.

(** A value fit for the way a method reads it. *)
Definition fits (a : access) (v : value) : bool :=
  match a with
  | Raw => true
  | One => is_ast v
  | Opt => is_none v || is_ast v
  | Seq => match v with VList l => forallb is_ast l | _ => false end
  | SeqOpt =>
      match v with
      | VList l => forallb (fun x => is_none x || is_ast x) l
      | _ => false
      end
  end.

Definition has_position (n : node) : bool :=
  match position_extractor n with Ok _ => true | Raise _ => false end.

(** A node its method can serve: the attributes the method reads are
    there and fit, and the location is there when the method (or the
    fallback) reads it. *)
Definition ready (n : node) : bool :=
  match assoc (cls n) shapes with
  | Some sh =>
      forallb (fun e : entry =>
                 match assoc e.2 (fields n ++ attrs n) with
                 | Some v => fits e.1.2 v
                 | None => false
                 end) (entries sh)
      && (negb (merges sh) || has_position n)
  | None => has_position n
  end.

(** The lines the fallback prints for some nodes, in their order. *)
Fixpoint diagnostics (ns : list node) : list string :=
  match ns with
  | [] => []
  | n :: ns' =>
      if has_converter (cls n) then diagnostics ns'
      else ("Unimplemented Node: " +:+ str n) :: diagnostics ns'
  end.

(** ** How a method fills a key *)

(** The method of [kind] fills [key] of its record from the attribute [f]
    of the node, read in the way [a]. *)
Definition reads (kind key : string) (a : access) (f : string) : Prop :=
  exists sh, assoc kind shapes = Some sh /\ In (key, a, f) (entries sh).

(** The keys of the record of a node of [kind], in their order. *)
Definition record_keys_of (kind : string) : list string :=
  if has_converter kind then
    "type" :: own_keys kind
    ++ (if bool_decide (kind ∈ bare_kinds) then [] else position_keys)
  else position_keys ++ ["type"].

(** A bare [return], and [{**a}], whose only key is [None]. *)
Definition return_node : node :=
  Node "Return" 0x7fa150 [("value", VNone)] (located 2 4 2 10).

Definition dict_node : node :=
  Node "Dict" 0x7fb150
    [("keys", VList [VNone]);
     ("values",
      VList [VAst (ast_Name 0x7fb180 "a" ast_Load (located 1 3 1 4))])]
    (located 1 0 1 5).

(** ** The program

    The body of [if __name__ == "__main__"], from the tree [ast.parse]
    returned on: the walk, [json.dump(dict_code, sys.stdout)], and the loop
    that prints the missing kinds.  [json.dump] is the standard library's:
    [json_text r] stands for the text it writes for [r], or the exception
    it raises.  [main] is the text standard output holds when the program
    ends: [print] writes a line and a newline, [json.dump] its text and no
    newline. *)

Definition newline : string := String (ascii_of_nat 10) "".

Fixpoint unlines (ls : list string) : string :=
  match ls with
  | [] => ""
  | l :: ls' => l +:+ newline +:+ unlines ls'
  end.

Section Program.

Variable json_text : dict -> result string.
Variable recursion_limit : nat.

Definition main (tree : value) : result string :=
  match visit recursion_limit tree initial with
  | Raise e => Raise e
  | Ok (dict_code, st) =>
      match json_text dict_code with
      | Raise e => Raise e
      | Ok text => Ok (unlines (stdout st) +:+ text +:+ unlines (report st))
      end
  end.

End Program.

(** ** Records without [ast] objects *)

Definition plain_attribute (n : node) (name : string) : bool :=
  match assoc name (fields n ++ attrs n) with
  | Some v => plain v
  | None => true
  end.

(** The attributes that the method serving [n] copies into the record as
    they are hold no [ast] object. *)
Definition copies_plain (n : node) : bool :=
  match assoc (cls n) shapes with
  | Some sh =>
      forallb (fun e : entry =>
                 match e.1.2 with
                 | Raw => plain_attribute n e.2
                 | _ => true
                 end) (entries sh)
      && (negb (merges sh) || forallb (plain_attribute n) position_keys)
  | None => forallb (plain_attribute n) position_keys
  end.

(** The nodes the walk of [x] dispatches on when nothing stops it. *)
Definition walked (x : value) : list node := dispatched (height x) x.

(** * Properties *)

(** The table of shapes is the class, method by method. *)
Lemma DictWalker_shapes :
  DictWalker = map (fun ks => (ks.1, run_shape ks.1 ks.2)) shapes.
Proof. reflexivity. Qed.

(** ** Dictionaries *)

Section Dictionaries.

Lemma assoc_In {A : Type} (k : string) (d : list (string * A)) (v : A) :
  assoc k d = Some v -> In (k, v) d.
Proof.
  induction d as [|[k' v'] d IH]; simpl; [discriminate|].
  destruct (String.eqb_spec k k') as [->|_].
  - intros [= ->]. now left.
  - intros H. right. now apply IH.
Qed.

Lemma assoc_None {A : Type} (k : string) (d : list (string * A)) :
  assoc k d = None <-> ~ In k (keys d).
Proof.
  induction d as [|[k' v'] d IH]; simpl; [tauto|].
  destruct (String.eqb_spec k k') as [->|Hne].
  - split; [discriminate|]. intros H. destruct H. now left.
  - rewrite IH. split.
    + intros H [E|E]; [now apply Hne|now apply H].
    + intros H E. apply H. now right.
Qed.

Lemma assoc_app {A : Type} (k : string) (d1 d2 : list (string * A)) :
  assoc k (d1 ++ d2)%list =
  match assoc k d1 with Some v => Some v | None => assoc k d2 end.
Proof.
  induction d1 as [|[k' v'] d1 IH]; simpl; [reflexivity|].
  now destruct (String.eqb k k').
Qed.

Lemma assoc_map {A B : Type} (g : string -> A -> B) (k : string)
    (d : list (string * A)) :
  assoc k (map (fun kv => (kv.1, g kv.1 kv.2)) d) = g k <$> assoc k d.
Proof.
  induction d as [|[k' v'] d IH]; simpl; [reflexivity|].
  destruct (String.eqb_spec k k') as [->|_]; [reflexivity|exact IH].
Qed.

Lemma assoc_dict_set (d : dict) (k k' : string) (v : value) :
  assoc k (dict_set d k' v) = if String.eqb k k' then Some v else assoc k d.
Proof.
  induction d as [|[k0 v0] d IH]; simpl.
  - now destruct (String.eqb k k').
  - destruct (String.eqb_spec k' k0) as [->|Hne]; simpl.
    + now destruct (String.eqb k k0).
    + rewrite IH.
      destruct (String.eqb_spec k k0) as [->|_]; [|reflexivity].
      destruct (String.eqb_spec k0 k') as [E|_]; [|reflexivity].
      now destruct Hne.
Qed.

(** On a shared key [a | b] takes the value of [b], the right operand. *)
Lemma assoc_dict_or (a b : dict) (k : string) :
  assoc k (dict_or a b) =
  match assoc k (rev b) with Some v => Some v | None => assoc k a end.
Proof.
  unfold dict_or. revert a.
  induction b as [|[k' v'] b IH]; intros a; simpl; [reflexivity|].
  rewrite IH, assoc_app, assoc_dict_set. simpl.
  destruct (assoc k (rev b)); [reflexivity|].
  now destruct (String.eqb k k').
Qed.

End Dictionaries.

(** ** Inversion of monadic computations *)

Section Monad.

Context {A B : Type}.

Lemma bind_Ok (m : M A) (f : A -> M B) (st st' : state) (b : B) :
  bind m f st = Ok (b, st') <->
  exists a st1, m st = Ok (a, st1) /\ f a st1 = Ok (b, st').
Proof.
  unfold bind. split.
  - destruct (m st) as [[a st1]|e]; [|discriminate].
    intros H. now exists a, st1.
  - intros (a & st1 & -> & H). exact H.
Qed.

Lemma ret_Ok (a a' : A) (st st' : state) :
  ret a st = Ok (a', st') <-> a' = a /\ st' = st.
Proof.
  unfold ret. split; [intros [= -> ->]|intros [-> ->]]; auto.
Qed.

End Monad.

Lemma getattr_Ok (n : node) (name : string) (st st' : state) (v : value) :
  getattr n name st = Ok (v, st') <->
  assoc name (fields n ++ attrs n)%list = Some v /\ st' = st.
Proof.
  unfold getattr.
  destruct (assoc name _) as [w|]; unfold ret, raise; split.
  - intros [= -> ->]. auto.
  - intros [[= ->] ->]. reflexivity.
  - discriminate.
  - intros [[=] _].
Qed.

(** Decompose a hypothesis [H : m st = Ok (a, st')] along the binds of [m]. *)
Ltac monad_inv H :=
  lazymatch type of H with
  | bind _ _ _ = Ok _ =>
      let a := fresh "a" in
      let st := fresh "st" in
      let H1 := fresh H in
      let H2 := fresh H in
      apply bind_Ok in H; destruct H as (a & st & H1 & H2);
      monad_inv H1; monad_inv H2
  | ret _ _ = Ok _ =>
      apply ret_Ok in H; destruct H as [? ?]; simplify_eq
  | raise _ _ = Ok _ => discriminate H
  | getattr _ _ _ = Ok _ =>
      apply getattr_Ok in H; destruct H as [H ?]; subst
  | missing_add _ _ = Ok _ => unfold missing_add in H; simplify_eq
  | print _ _ = Ok _ => unfold print in H; simplify_eq
  | _ => idtac
  end.

(** ** Info-only metadata *)

Lemma generic_visit_info (visit : visitor) (n : node) (st : state) :
  generic_visit visit n true st =
  match position_extractor n with
  | Ok d => Ok (d, st)
  | Raise e => Raise e
  end.
Proof.
  unfold generic_visit, position_extractor, attribute, hasattr, getattr, bind.
  simpl.
  destruct (assoc "type_comment" _) as [tc|]; simpl;
    destruct (assoc "lineno" _) as [l|]; simpl; try reflexivity;
    destruct (assoc "col_offset" _) as [c|]; simpl; try reflexivity;
    destruct (assoc "end_lineno" _) as [el|]; simpl; try reflexivity;
    destruct (assoc "end_col_offset" _) as [ec|]; simpl; reflexivity.
Qed.

Lemma position_extractor_keys (n : node) (d : dict) :
  position_extractor n = Ok d -> keys d = position_keys.
Proof.
  unfold position_extractor.
  destruct (attribute n "lineno"); [|discriminate].
  destruct (attribute n "col_offset"); [|discriminate].
  destruct (attribute n "end_lineno"); [|discriminate].
  destruct (attribute n "end_col_offset"); [|discriminate].
  intros [= <-]. reflexivity.
Qed.

Lemma generic_visit_info_Ok (visit : visitor) (n : node) (st st' : state)
    (d : dict) :
  generic_visit visit n true st = Ok (d, st') <->
  position_extractor n = Ok d /\ st' = st.
Proof.
  rewrite generic_visit_info.
  destruct (position_extractor n) as [d'|e]; split.
  - intros [= -> ->]. auto.
  - intros [[= ->] ->]. reflexivity.
  - discriminate.
  - intros [[=] _].
Qed.

(** ** Dispatch and the shape of a converter's result *)

Lemma has_converter_shapes (kind : string) :
  has_converter kind = bool_decide (is_Some (assoc kind shapes)).
Proof.
  unfold has_converter. rewrite DictWalker_shapes, assoc_map.
  now destruct (assoc kind shapes).
Qed.

Lemma visit_node (depth : nat) (n : node) :
  visit (S depth) (VAst n) =
  match assoc (cls n) shapes with
  | Some sh => run_shape (cls n) sh (visit depth) n
  | None => generic_visit (visit depth) n false
  end.
Proof.
  change (visit (S depth) (VAst n)) with
    (match assoc (cls n) DictWalker with
     | Some visit_method => visit_method (visit depth) n
     | None => generic_visit (visit depth) n false
     end).
  rewrite DictWalker_shapes, assoc_map.
  now destruct (assoc (cls n) shapes).
Qed.

Lemma visit_Ok_node (depth : nat) (x : value) (st st' : state) (r : dict) :
  visit depth x st = Ok (r, st') ->
  exists depth' n, depth = S depth' /\ x = VAst n.
Proof.
  destruct depth as [|depth']; [discriminate|].
  destruct x; try discriminate. eauto.
Qed.

Lemma read_entries_Ok (visit : visitor) (n : node) (es : list entry)
    (acc : dict) (k : dict -> M dict) (st st' : state) (r : dict) :
  read_entries visit n es acc k st = Ok (r, st') <->
  exists own st1,
    mapM (read_entry visit n) es st = Ok (own, st1) /\
    k (acc ++ own)%list st1 = Ok (r, st').
Proof.
  revert acc st. induction es as [|[[key a] f] es IH]; intros acc st; simpl.
  - split.
    + intros H. exists [], st. now rewrite app_nil_r.
    + intros (own & st1 & [= <- <-] & H). now rewrite app_nil_r in H.
  - rewrite bind_Ok. split.
    + intros (v & st1 & Hv & H). apply IH in H as (own & st2 & Hown & H).
      exists ((key, v) :: own), st2. split.
      * apply bind_Ok. exists (key, v), st1. split.
        { unfold read_entry. apply bind_Ok. now exists v, st1. }
        apply bind_Ok. now exists own, st2.
      * now rewrite <- app_assoc in H.
    + intros (own & st2 & Hown & H).
      apply bind_Ok in Hown as ([key' v] & st1 & Hv & Hown).
      unfold read_entry in Hv. simpl in Hv. monad_inv Hv.
      monad_inv Hown. eexists _, _. split; [eassumption|].
      apply IH. eexists _, _. split; [eassumption|].
      now rewrite <- app_assoc.
Qed.

Lemma read_entries_keys (visit : visitor) (n : node) (es : list entry)
    (st st' : state) (own : dict) :
  mapM (read_entry visit n) es st = Ok (own, st') ->
  keys own = map (fun e : entry => e.1.1) es.
Proof.
  revert st own. induction es as [|e es IH]; intros st own H; simpl in H.
  - monad_inv H. reflexivity.
  - monad_inv H. unfold read_entry in H0. monad_inv H0.
    simpl. f_equal. eauto.
Qed.

(** What a [visit_*] method returns: its own entries after ["type"],
    merged with the info-only metadata when the method merges. *)
Lemma run_shape_Ok (kind : string) (sh : shape) (visit : visitor) (n : node)
    (st st' : state) (r : dict) :
  run_shape kind sh visit n st = Ok (r, st') <->
  exists own info,
    mapM (read_entry visit n) (entries sh) st = Ok (own, st') /\
    (if merges sh then position_extractor n = Ok info else info = []) /\
    r = dict_or (("type", VStr kind) :: own) info.
Proof.
  unfold run_shape. rewrite read_entries_Ok. split.
  - intros (own & st1 & Hown & H). destruct (merges sh).
    + monad_inv H. apply generic_visit_info_Ok in H0 as [Hinfo ->].
      now exists own, a.
    + monad_inv H. now exists own, [].
  - intros (own & info & Hown & Hinfo & ->). exists own, st'.
    split; [assumption|]. destruct (merges sh).
    + apply bind_Ok. exists info, st'. split; [|reflexivity].
      now apply generic_visit_info_Ok.
    + now subst info.
Qed.

Lemma assoc_rev_None {A : Type} (k : string) (d : list (string * A)) :
  assoc k d = None -> assoc k (rev d) = None.
Proof.
  rewrite !assoc_None. unfold keys. rewrite map_rev, <- in_rev. tauto.
Qed.

Lemma assoc_dict_or_l (a b : dict) (k : string) :
  ~ In k (keys b) -> assoc k (dict_or a b) = assoc k a.
Proof.
  intros H. rewrite assoc_dict_or, assoc_rev_None; [reflexivity|].
  now apply assoc_None.
Qed.

Lemma assoc_dict_or_r (a b : dict) (k : string) :
  In k (keys b) -> is_Some (assoc k (dict_or a b)).
Proof.
  intros H. rewrite assoc_dict_or.
  destruct (assoc k (rev b)) as [v|] eqn:E; [eauto|].
  apply assoc_None in E. destruct E.
  unfold keys. rewrite map_rev, <- in_rev. exact H.
Qed.

(** No method uses ["type"] or a positional key for a field of its own. *)
Lemma shapes_keys_fresh (kind : string) (sh : shape) (e : entry) :
  assoc kind shapes = Some sh -> In e (entries sh) ->
  ~ In e.1.1 ("type" :: position_keys).
Proof.
  intros Hsh He. apply assoc_In in Hsh.
  assert (Hall : Forall (fun ks : string * shape =>
            Forall (fun e : entry => e.1.1 ∉ "type" :: position_keys)
                   (entries ks.2)) shapes).
  { apply (bool_decide_unpack _). vm_compute. reflexivity. }
  rewrite Forall_forall in Hall.
  apply list_elem_of_In, Hall in Hsh. simpl in Hsh.
  rewrite Forall_forall in Hsh.
  apply list_elem_of_In, Hsh in He.
  now rewrite list_elem_of_In in He.
Qed.

Lemma converter_kinds_not_placeholder (kind : string) (sh : shape) (s : string) :
  assoc kind shapes = Some sh -> kind <> "Unimplemented: " +:+ s.
Proof.
  intros Hsh ->. apply assoc_In in Hsh.
  assert (Hall : Forall (fun ks : string * shape =>
            String.prefix "Unimplemented: " ks.1 = false) shapes).
  { apply (bool_decide_unpack _). vm_compute. reflexivity. }
  rewrite Forall_forall in Hall.
  apply list_elem_of_In, Hall in Hsh. cbn in Hsh.
  now destruct s.
Qed.

(** ** The fallback *)

Lemma position_extractor_type (n : node) (info : dict) :
  position_extractor n = Ok info -> assoc "type" info = None.
Proof.
  intros H. apply assoc_None. rewrite (position_extractor_keys _ _ H).
  vm_compute. intuition discriminate.
Qed.

Lemma dict_or_placeholder (info : dict) (v : value) :
  assoc "type" info = None ->
  dict_or info [("type", v)] = (info ++ [("type", v)])%list.
Proof.
  unfold dict_or. cbn [fold_left fst snd].
  induction info as [|[k w] info IH]; cbn [assoc dict_set app];
    [reflexivity|].
  destruct (String.eqb "type" k); [discriminate|].
  intros H. now rewrite IH.
Qed.

Lemma generic_visit_eq (visit : visitor) (n : node) (b : bool) (st : state) :
  generic_visit visit n b st =
  match (if negb b then
           missing_add (cls n) ;;;
           print ("Unimplemented Node: " +:+ str n) ;;;
           NodeVisitor_generic_visit visit n ;;;
           ret [("type", VStr ("Unimplemented: " +:+ str n))]
         else ret []) st with
  | Ok (info, st1) =>
      match position_extractor n with
      | Ok d => Ok (dict_or d info, st1)
      | Raise e => Raise e
      end
  | Raise e => Raise e
  end.
Proof.
  unfold generic_visit. unfold bind at 1.
  match goal with |- context [match ?m st with _ => _ end] =>
    destruct (m st) as [[info st1]|e]; [|reflexivity] end.
  unfold position_extractor, attribute, hasattr, getattr, bind, ret, raise.
  destruct (assoc "type_comment" _) as [tc|]; simpl;
    destruct (assoc "lineno" _) as [l|]; simpl; try reflexivity;
    destruct (assoc "col_offset" _) as [c|]; simpl; try reflexivity;
    destruct (assoc "end_lineno" _) as [el|]; simpl; try reflexivity;
    destruct (assoc "end_col_offset" _) as [ec|]; simpl; reflexivity.
Qed.

Lemma generic_visit_fallback_Ok (visit : visitor) (n : node) (st st' : state)
    (r : dict) :
  generic_visit visit n false st = Ok (r, st') <->
  exists info,
    NodeVisitor_generic_visit visit n
      (State ({[ cls n ]} ∪ missing st)
             (stdout st ++ ["Unimplemented Node: " +:+ str n])%list)
    = Ok (tt, st') /\
    position_extractor n = Ok info /\
    r = info ++ [("type", VStr ("Unimplemented: " +:+ str n))].
Proof.
  rewrite generic_visit_eq. simpl negb. cbv iota.
  unfold bind at 1 2, missing_add, print. simpl.
  unfold bind, ret.
  destruct (NodeVisitor_generic_visit visit n _) as [[[] st1]|e].
  - destruct (position_extractor n) as [d|e] eqn:Hd.
    + rewrite dict_or_placeholder by (eapply position_extractor_type; eauto).
      split.
      * intros [= <- <-]. eauto.
      * intros (info & [= ->] & [= <-] & ->). reflexivity.
    + split; [discriminate|]. intros (info & _ & [=] & _).
  - split; [discriminate|]. intros (info & [=] & _).
Qed.

(** ** Records of converted nodes *)

Lemma has_converter_Some (kind : string) :
  has_converter kind = true <-> exists sh, assoc kind shapes = Some sh.
Proof.
  rewrite has_converter_shapes.
  destruct (assoc kind shapes) as [sh|]; simpl; split; eauto.
  - discriminate.
  - intros [sh [=]].
Qed.

Lemma has_converter_None (kind : string) :
  has_converter kind = false <-> assoc kind shapes = None.
Proof.
  rewrite has_converter_shapes.
  destruct (assoc kind shapes) as [sh|]; simpl; split; eauto; discriminate.
Qed.

Lemma visit_converted_Ok (depth : nat) (n : node) (sh : shape)
    (st st' : state) (r : dict) :
  assoc (cls n) shapes = Some sh ->
  visit depth (VAst n) st = Ok (r, st') ->
  exists depth' own info,
    depth = S depth' /\
    mapM (read_entry (visit depth') n) (entries sh) st = Ok (own, st') /\
    (if merges sh then position_extractor n = Ok info else info = []) /\
    keys own = own_keys (cls n) /\
    r = dict_or (("type", VStr (cls n)) :: own) info.
Proof.
  intros Hsh H. destruct depth as [|depth']; [discriminate|].
  rewrite visit_node, Hsh in H.
  apply run_shape_Ok in H as (own & info & Hown & Hinfo & ->).
  exists depth', own, info. repeat split; try assumption.
  unfold own_keys. rewrite Hsh. eapply read_entries_keys; eassumption.
Qed.

Lemma visit_fallback_Ok (depth : nat) (n : node) (st st' : state) (r : dict) :
  assoc (cls n) shapes = None ->
  visit depth (VAst n) st = Ok (r, st') ->
  exists depth' info,
    depth = S depth' /\
    NodeVisitor_generic_visit (visit depth') n
      (State ({[ cls n ]} ∪ missing st)
             (stdout st ++ ["Unimplemented Node: " +:+ str n])%list)
    = Ok (tt, st') /\
    position_extractor n = Ok info /\
    r = info ++ [("type", VStr ("Unimplemented: " +:+ str n))].
Proof.
  intros Hsh H. destruct depth as [|depth']; [discriminate|].
  rewrite visit_node, Hsh in H.
  apply generic_visit_fallback_Ok in H as (info & H1 & H2 & H3).
  now exists depth', info.
Qed.

Lemma merged_info_keys (sh : shape) (n : node) (info : dict) :
  (if merges sh then position_extractor n = Ok info else info = []) ->
  keys info = if merges sh then position_keys else [].
Proof.
  destruct (merges sh).
  - apply position_extractor_keys.
  - now intros ->.
Qed.

Lemma own_keys_fresh (kind k : string) :
  In k ("type" :: own_keys kind) -> ~ In k position_keys.
Proof.
  unfold own_keys. intros [<-|Hk].
  - vm_compute. intuition discriminate.
  - destruct (assoc kind shapes) as [sh|] eqn:Hsh; [|destruct Hk].
    apply in_map_iff in Hk as (e & <- & He).
    intros Hp. eapply shapes_keys_fresh; [eassumption..|]. now right.
Qed.

Lemma bare_kinds_merges (kind : string) (sh : shape) :
  assoc kind shapes = Some sh ->
  merges sh = bool_decide (kind ∉ bare_kinds).
Proof.
  intros Hsh. apply assoc_In in Hsh.
  assert (Hall : Forall (fun ks : string * shape =>
            merges ks.2 = bool_decide (ks.1 ∉ bare_kinds)) shapes).
  { apply (bool_decide_unpack _). vm_compute. reflexivity. }
  rewrite Forall_forall in Hall.
  now apply list_elem_of_In, Hall in Hsh.
Qed.

Lemma bare_kinds_converted (kind : string) :
  kind ∈ bare_kinds -> exists sh, assoc kind shapes = Some sh.
Proof.
  assert (Hall : Forall (fun k => is_Some (assoc k shapes)) bare_kinds).
  { apply (bool_decide_unpack _). vm_compute. reflexivity. }
  rewrite Forall_forall in Hall. intros Hk.
  destruct (Hall _ Hk) as [sh Hsh]. eauto.
Qed.

(** ** The records *)

Lemma converted_record (depth : nat) (n : node) (sh : shape) (st st' : state)
    (r : dict) :
  assoc (cls n) shapes = Some sh ->
  visit depth (VAst n) st = Ok (r, st') ->
  exists own info,
    r = dict_or (("type", VStr (cls n)) :: own) info /\
    keys own = own_keys (cls n) /\
    keys info = if bool_decide (cls n ∉ bare_kinds) then position_keys else [].
Proof.
  intros Hsh H.
  destruct (visit_converted_Ok _ _ _ _ _ _ Hsh H)
    as (depth' & own & info & -> & _ & Hinfo & Hown & ->).
  exists own, info. repeat split; [assumption|].
  rewrite <- (bare_kinds_merges _ _ Hsh).
  eapply merged_info_keys; eassumption.
Qed.

Lemma converted_record_type (kind : string) (own info : dict) :
  keys info = (if bool_decide (kind ∉ bare_kinds) then position_keys else []) ->
  assoc "type" (dict_or (("type", VStr kind) :: own) info)
  = Some (VStr kind).
Proof.
  intros Hinfo. rewrite assoc_dict_or_l; [reflexivity|].
  rewrite Hinfo. case_bool_decide; vm_compute; intuition discriminate.
Qed.

(** C8: in info-only mode ([just_get_info] true) [generic_visit] is the
    position extractor and nothing more: the [missing] set and standard
    output are left as they were, the result does not depend on the visitor
    (no child is visited, even a visitor that always raises changes
    nothing), and a returned dictionary has exactly the five positional
    keys. *)
Theorem generic_visit_info_only (visit : visitor) (n : node) (st : state) :
  generic_visit visit n true st =
    match position_extractor n with
    | Ok d => Ok (d, st)
    | Raise e => Raise e
    end /\
  generic_visit visit n true st =
    generic_visit (fun _ => raise RecursionError) n true st /\
  forall d st', generic_visit visit n true st = Ok (d, st') ->
    missing st' = missing st /\ stdout st' = stdout st /\
    keys d = position_keys.
Proof.
  split; [apply generic_visit_info|]. split.
  - now rewrite !generic_visit_info.
  - intros d st' H. apply generic_visit_info_Ok in H as [Hd ->].
    repeat split. eapply position_extractor_keys; eassumption.
Qed.

Lemma generic_visit_info_only_witness :
  generic_visit (visit 3) assign_node true initial =
    Ok (located 1 0 1 5 ++ [("type_comment", VNone)], initial)%list /\
  missing initial = ∅ /\ stdout initial = [].
Proof.
  destruct (generic_visit_info_only (visit 3) assign_node initial)
    as (Heq & _ & Hframe).
  split; [rewrite Heq; reflexivity|].
  split; reflexivity.
Defined.

(** C4: the record a [visit_*] method returns has its class name under
    ["type"], and never a placeholder of the fallback. *)
Theorem kind_specific_type (depth : nat) (n : node) (st st' : state)
    (r : dict) :
  has_converter (cls n) = true ->
  visit depth (VAst n) st = Ok (r, st') ->
  assoc "type" r = Some (VStr (cls n)) /\
  forall s, assoc "type" r <> Some (VStr ("Unimplemented: " +:+ s)).
Proof.
  intros Hc H. apply has_converter_Some in Hc as [sh Hsh].
  destruct (converted_record _ _ _ _ _ _ Hsh H) as (own & info & -> & _ & Hinfo).
  pose proof (converted_record_type _ own _ Hinfo) as Ht.
  split; [exact Ht|].
  intros s. rewrite Ht. intros [= E].
  eapply converter_kinds_not_placeholder; eassumption.
Qed.

Lemma kind_specific_type_witness :
  exists r st',
    visit 3 (VAst assign_node) initial = Ok (r, st') /\
    assoc "type" r = Some (VStr "Assign").
Proof.
  eexists _, _. split; [vm_compute; reflexivity|].
  eapply (kind_specific_type 3 assign_node initial);
    [reflexivity|vm_compute; reflexivity].
Defined.

(** C2, as stated, fails: the record of a [Load] node has no [lineno]. *)
Lemma Load_record_has_no_position :
  ~ (forall depth x st st' r,
       visit depth x st = Ok (r, st') ->
       forall k, k ∈ "type" :: position_keys -> is_Some (assoc k r)).
Proof.
  intros H.
  assert (Hv : visit 1 ast_Load initial = Ok ([("type", VStr "Load")], initial))
    by reflexivity.
  destruct (H _ _ _ _ _ Hv "lineno") as [v Hl].
  - apply list_elem_of_In. right. left. reflexivity.
  - discriminate Hl.
Qed.

(** C2, amended: every record has ["type"]; it has the five positional keys
    when it comes from the fallback or from a method that merges the
    info-only metadata in, and none of them when it comes from one of the
    twelve methods that return their dictionary bare. *)
Theorem record_fields (depth : nat) (n : node) (st st' : state) (r : dict) :
  visit depth (VAst n) st = Ok (r, st') ->
  is_Some (assoc "type" r) /\
  (cls n ∉ bare_kinds ->
   forall k, k ∈ position_keys -> is_Some (assoc k r)) /\
  (cls n ∈ bare_kinds ->
   forall k, k ∈ position_keys -> assoc k r = None).
Proof.
  intros H. destruct (assoc (cls n) shapes) as [sh|] eqn:Hsh.
  - destruct (converted_record _ _ _ _ _ _ Hsh H)
      as (own & info & -> & Hown & Hinfo).
    split; [rewrite (converted_record_type _ own _ Hinfo); eauto|]. split.
    + intros Hbare k Hk. apply assoc_dict_or_r.
      rewrite Hinfo, bool_decide_eq_true_2 by assumption.
      now apply list_elem_of_In.
    + intros Hbare k Hk.
      rewrite bool_decide_eq_false_2 in Hinfo by tauto.
      destruct info; [|discriminate]. unfold dict_or. cbn [fold_left].
      apply assoc_None. change (keys (("type", VStr (cls n)) :: own))
        with ("type" :: keys own). rewrite Hown.
      intros Hin. apply own_keys_fresh in Hin.
      now apply list_elem_of_In in Hk.
  - destruct (visit_fallback_Ok _ _ _ _ _ Hsh H)
      as (depth' & info & -> & _ & Hinfo & ->).
    pose proof (position_extractor_keys _ _ Hinfo) as Hk.
    split; [|split].
    + rewrite assoc_app, (position_extractor_type _ _ Hinfo). simpl. eauto.
    + intros _ k Hin. rewrite assoc_app.
      destruct (assoc k info) as [v|] eqn:E; [eauto|].
      apply assoc_None in E. rewrite Hk in E.
      now apply list_elem_of_In in Hin.
    + intros Hbare. apply bare_kinds_converted in Hbare as [sh Hsh'].
      congruence.
Qed.

Lemma record_fields_witness :
  exists r st',
    visit 3 (VAst assign_node) initial = Ok (r, st') /\
    is_Some (assoc "type" r) /\ is_Some (assoc "end_col_offset" r).
Proof.
  eexists _, _. split; [vm_compute; reflexivity|].
  destruct (record_fields 3 assign_node initial _ _
              ltac:(vm_compute; reflexivity)) as (Ht & Hpos & _).
  split; [exact Ht|]. apply Hpos.
  - apply (bool_decide_unpack _). vm_compute. reflexivity.
  - apply list_elem_of_In. do 3 right. left. reflexivity.
Defined.



(** ** Two methods in detail *)

Lemma visit_method (kind : string) (m : method) (depth : nat) (n : node) :
  assoc kind DictWalker = Some m -> cls n = kind ->
  visit (S depth) (VAst n) = m (visit depth) n.
Proof.
  intros Hm <-.
  change (visit (S depth) (VAst n)) with
    (match assoc (cls n) DictWalker with
     | Some visit_method => visit_method (visit depth) n
     | None => generic_visit (visit depth) n false
     end).
  now rewrite Hm.
Qed.

Lemma mapM_visited_in_order (visit : visitor) (xs rs : list value)
    (st st' : state) :
  mapM (visit_value visit) xs st = Ok (rs, st') <->
  visited_in_order visit xs st rs st'.
Proof.
  split.
  - revert rs st. induction xs as [|x xs IH]; intros rs st H; simpl in H.
    + monad_inv H. constructor.
    + monad_inv H. unfold visit_value in H0. monad_inv H0.
      econstructor; eauto.
  - induction 1 as [st|x xs st st1 st2 d rs Hx Hxs IH]; [reflexivity|].
    simpl. apply bind_Ok. exists (VDict d), st1. split.
    + unfold visit_value. apply bind_Ok. now exists d, st1.
    + apply bind_Ok. now exists rs, st2.
Qed.

Lemma visited_in_order_length (visit : visitor) (xs rs : list value)
    (st st' : state) :
  visited_in_order visit xs st rs st' -> length rs = length xs.
Proof. induction 1; simpl; congruence. Qed.

Lemma iter_Ok (v : value) (l : list value) (st st' : state) :
  iter v st = Ok (l, st') -> st' = st /\ forall st0, iter v st0 = Ok (l, st0).
Proof.
  destruct v; simpl; try discriminate; intros H; monad_inv H; auto.
Qed.

Lemma attribute_Ok (n : node) (name : string) (v : value) :
  attribute n name = Ok v <-> assoc name (fields n ++ attrs n) = Some v.
Proof.
  unfold attribute. destruct (assoc name _); split; congruence.
Qed.

(** [f(node.name)] *)
Lemma getattr_bind_Ok {A : Type} (f : value -> M A) (n : node) (name : string)
    (st st' : state) (r : A) :
  (f =<< getattr n name) st = Ok (r, st') <->
  exists v, attribute n name = Ok v /\ f v st = Ok (r, st').
Proof.
  rewrite bind_Ok. split.
  - intros (v & st1 & Hv & H). apply getattr_Ok in Hv as [Hv ->].
    exists v. now rewrite attribute_Ok.
  - intros (v & Hv & H). exists v, st. split; [|assumption].
    apply getattr_Ok. now rewrite <- attribute_Ok.
Qed.

Lemma list_map_Ok (f : value -> M value) (xs r : value) (st st' : state) :
  list_map f xs st = Ok (r, st') <->
  exists items rs,
    iter xs st = Ok (items, st) /\ mapM f items st = Ok (rs, st') /\
    r = VList rs.
Proof.
  unfold list_map. rewrite bind_Ok. split.
  - intros (items & st1 & Hi & H). monad_inv H.
    destruct (iter_Ok _ _ _ _ Hi) as [-> _]. now exists items, a.
  - intros (items & rs & Hi & Hm & ->). exists items, st.
    split; [assumption|]. apply bind_Ok. now exists rs, st'.
Qed.

Lemma dict_or_position (own info : dict) (n : node) :
  position_extractor n = Ok info ->
  (forall k, In k position_keys -> assoc k own = None) ->
  dict_or own info = own ++ info.
Proof.
  intros Hinfo. unfold position_extractor in Hinfo.
  repeat (destruct (attribute n _); [|discriminate]).
  injection Hinfo as <-. intros Hfresh.
  unfold dict_or. cbn [fold_left fst snd].
  assert (Hset : forall (d : dict) k v,
            assoc k d = None -> dict_set d k v = d ++ [(k, v)]).
  { induction d as [|[k0 v0] d IH]; intros k v; cbn [assoc dict_set app];
      [reflexivity|].
    destruct (String.eqb k k0); [discriminate|].
    intros H. now rewrite IH. }
  rewrite !Hset; [now rewrite <- !app_assoc|..];
    rewrite ?assoc_dict_set; cbn [String.eqb Ascii.eqb Bool.eqb];
    apply Hfresh; vm_compute; tauto.
Qed.

(** C9: the record of a [Compare] node holds the records of the node's
    operators under ["ops"] and those of its comparators under
    ["comparators"], each list visited from left to right and as long as
    the node's; the left operand is not stored, and the two lengths are
    not compared. *)
Theorem Compare_record (depth : nat) (n : node) (st st' : state) (r : dict) :
  cls n = "Compare" ->
  visit (S depth) (VAst n) st = Ok (r, st') ->
  exists ops_field comparators_field ops comparators rops rcomparators st1 info,
    attribute n "ops" = Ok ops_field /\
    iter ops_field st = Ok (ops, st) /\
    attribute n "comparators" = Ok comparators_field /\
    iter comparators_field st1 = Ok (comparators, st1) /\
    visited_in_order (visit depth) ops st rops st1 /\
    visited_in_order (visit depth) comparators st1 rcomparators st' /\
    length rops = length ops /\
    length rcomparators = length comparators /\
    position_extractor n = Ok info /\
    r = [("type", VStr "Compare");
         ("ops", VList rops);
         ("comparators", VList rcomparators)] ++ info /\
    assoc "left" r = None.
Proof.
  intros Hcls H.
  rewrite (visit_method "Compare" visit_Compare) in H
    by (reflexivity || assumption).
  unfold visit_Compare in H.
  apply bind_Ok in H as (vops & st1 & Hops & H).
  apply bind_Ok in H as (vcomps & st2 & Hcomps & H).
  apply bind_Ok in H as (info & st3 & Hinfo & H).
  apply ret_Ok in H as [-> ->].
  apply generic_visit_info_Ok in Hinfo as [Hinfo ->].
  apply getattr_bind_Ok in Hops as (ops_field & Hof & Hops).
  apply getattr_bind_Ok in Hcomps as (comps_field & Hcf & Hcomps).
  apply list_map_Ok in Hops as (ops & rops & Hio & Hops & ->).
  apply list_map_Ok in Hcomps as (comps & rcomps & Hic & Hcomps & ->).
  apply mapM_visited_in_order in Hops, Hcomps.
  exists ops_field, comps_field, ops, comps, rops, rcomps, st1, info.
  assert (Hr : dict_or [("type", VStr "Compare"); ("ops", VList rops);
                        ("comparators", VList rcomps)] info =
               [("type", VStr "Compare"); ("ops", VList rops);
                ("comparators", VList rcomps)] ++ info).
  { eapply dict_or_position; [eassumption|].
    intros k Hk. vm_compute in Hk.
    repeat (destruct Hk as [<-|Hk]; [reflexivity|]). destruct Hk. }
  repeat split; eauto using visited_in_order_length.
  rewrite Hr, assoc_app. cbn [assoc String.eqb Ascii.eqb Bool.eqb].
  apply assoc_None. rewrite (position_extractor_keys _ _ Hinfo).
  vm_compute. intuition discriminate.
Qed.

Lemma Compare_record_witness :
  exists r st' rops rcomparators,
    visit 3 (VAst uneven_compare_node) initial = Ok (r, st') /\
    assoc "ops" r = Some (VList rops) /\ length rops = 2 /\
    assoc "comparators" r = Some (VList rcomparators) /\
    length rcomparators = 1.
Proof.
  destruct (Compare_record 2 uneven_compare_node initial _ _ eq_refl
              ltac:(vm_compute; reflexivity))
    as (opsf & compsf & ops & comps & rops & rcomps & st1 & info
        & Hopsf & Hops & Hcompsf & Hcomps & _ & _ & Hl1 & Hl2 & _ & Hr & _).
  injection Hopsf as <-. injection Hcompsf as <-.
  injection Hops as <-. injection Hcomps as <-.
  eexists _, _, rops, rcomps. split; [vm_compute; reflexivity|].
  repeat split; try assumption.
  - injection Hr as <- _. reflexivity.
  - injection Hr as _ <- _. reflexivity.
Defined.

Lemma visit_optional_Ok (visit : visitor) (x r : value) (st st' : state) :
  visit_optional visit x st = Ok (r, st') <->
  match x with
  | VNone => r = VNone /\ st' = st
  | _ => exists d, visit x st = Ok (d, st') /\ r = VDict d
  end.
Proof.
  assert (Hv : visit_value visit x st = Ok (r, st') <->
               exists d, visit x st = Ok (d, st') /\ r = VDict d).
  { unfold visit_value. rewrite bind_Ok. split.
    - intros (d & st1 & Hd & H). monad_inv H. eauto.
    - intros (d & Hd & ->). now exists d, st'. }
  unfold visit_optional. destruct x; simpl; try exact Hv.
  apply ret_Ok.
Qed.

(** C10: the record of a [FunctionDef] node has no key ["returns"]; under
    ["return"] it has [None] when the node's [returns] is [None], and the
    record of the annotation otherwise. *)
Theorem FunctionDef_return (depth : nat) (n : node) (st st' : state)
    (r : dict) :
  cls n = "FunctionDef" ->
  visit (S depth) (VAst n) st = Ok (r, st') ->
  assoc "returns" r = None /\
  exists returns,
    attribute n "returns" = Ok returns /\
    match returns with
    | VNone => assoc "return" r = Some VNone
    | _ => exists st1 d,
             visit depth returns st1 = Ok (d, st') /\
             assoc "return" r = Some (VDict d)
    end.
Proof.
  intros Hcls H.
  rewrite (visit_method "FunctionDef" visit_FunctionDef) in H
    by (reflexivity || assumption).
  unfold visit_FunctionDef in H.
  apply bind_Ok in H as (name & st1 & _ & H).
  apply bind_Ok in H as (args & st2 & _ & H).
  apply bind_Ok in H as (body & st3 & _ & H).
  apply bind_Ok in H as (decorator_list & st4 & _ & H).
  apply bind_Ok in H as (ret_record & st5 & Hret & H).
  apply bind_Ok in H as (info & st6 & Hinfo & H).
  apply ret_Ok in H as [-> ->].
  apply generic_visit_info_Ok in Hinfo as [Hinfo ->].
  apply getattr_bind_Ok in Hret as (returns & Hattr & Hret).
  apply visit_optional_Ok in Hret.
  erewrite dict_or_position; [|eassumption|].
  - split.
    + rewrite assoc_app. cbn [assoc String.eqb Ascii.eqb Bool.eqb].
      apply assoc_None. rewrite (position_extractor_keys _ _ Hinfo).
      vm_compute. intuition discriminate.
    + exists returns. split; [assumption|].
      destruct returns;
        try (destruct Hret as (record & Hd & ->); exists st4, record;
             split; [assumption|reflexivity]).
      destruct Hret as [-> _]. reflexivity.
  - intros k Hk. vm_compute in Hk.
    repeat (destruct Hk as [<-|Hk]; [reflexivity|]). destruct Hk.
Qed.

Lemma FunctionDef_return_witness :
  exists r st',
    visit 3 (VAst (functiondef_node VNone)) initial = Ok (r, st') /\
    assoc "returns" r = None /\ assoc "return" r = Some VNone.
Proof.
  eexists _, _. split; [vm_compute; reflexivity|].
  destruct (FunctionDef_return 2 (functiondef_node VNone) initial _ _ eq_refl
              ltac:(vm_compute; reflexivity))
    as (Hnone & returns & Hattr & Hret).
  injection Hattr as <-. split; [exact Hnone|exact Hret].
Defined.

(** ** The fallback on a node without a location *)

(** C1 (fails on the code): on [a - b] the walk reaches the operator
    [Sub], which has no [visit_Sub] and, like every operator, no location
    attributes; the fallback raises [AttributeError] on [node.lineno],
    however deep the call stack may go. *)
Theorem visit_raises_on_Sub (depth : nat) :
  visit (5 + depth) sub_tree initial = Raise (AttributeError "lineno").
Proof. reflexivity. Qed.

(** C5 (fails on the code): the fallback returns no record for [Sub]; it
    raises after it has added the kind and printed the diagnostic, so the
    end-of-run report is never reached. *)
Theorem fallback_raises_on_Sub (visit : visitor) (st : state) :
  has_converter (cls sub_node) = false /\
  generic_visit visit sub_node false st = Raise (AttributeError "lineno").
Proof.
  split; [reflexivity|]. rewrite generic_visit_eq. reflexivity.
Qed.

(** The report prints each missing kind once. *)
Lemma report_once (st : state) (kind : string) :
  NoDup (report st) /\ (kind ∈ report st <-> kind ∈ missing st).
Proof.
  unfold report. split; [apply NoDup_elements|apply elem_of_elements].
Qed.

(** ** Accounting of the missing kinds *)

Lemma unconverted_app (ns ms : list node) :
  unconverted (ns ++ ms) = unconverted ns ∪ unconverted ms.
Proof.
  induction ns as [|n ns IH]; simpl.
  - set_solver.
  - destruct (has_converter (cls n)); rewrite IH; set_solver.
Qed.

Lemma iter_items (v : value) (l : list value) (st st' : state) :
  iter v st = Ok (l, st') -> items v = l /\ st' = st.
Proof.
  destruct v; simpl; try discriminate; intros H; monad_inv H; auto.
Qed.

Section Accounting.

(** One level of the walk: [visit] is [self.visit] as the methods call it,
    and it adds to [missing] the unconverted kinds among [disp x]. *)
Variable visit : visitor.
Variable disp : value -> list node.

Hypothesis visit_adds : forall x st r st',
  visit x st = Ok (r, st') ->
  missing st' = missing st ∪ unconverted (disp x).

Let added (xs : list value) : gset string := unconverted (flat_map disp xs).

Lemma added_app (xs ys : list value) :
  added (xs ++ ys) = added xs ∪ added ys.
Proof. unfold added. now rewrite flat_map_app, unconverted_app. Qed.

Lemma added_cons (x : value) (xs : list value) :
  added (x :: xs) = unconverted (disp x) ∪ added xs.
Proof. unfold added. simpl. now rewrite unconverted_app. Qed.

Lemma visit_value_adds (x r : value) (st st' : state) :
  visit_value visit x st = Ok (r, st') ->
  missing st' = missing st ∪ added [x].
Proof.
  unfold visit_value. intros H. monad_inv H.
  rewrite (visit_adds _ _ _ _ H0), added_cons. unfold added. simpl.
  set_solver.
Qed.

Lemma visit_optional_adds (x r : value) (st st' : state) :
  visit_optional visit x st = Ok (r, st') ->
  missing st' = missing st ∪ added (if is_none x then [] else [x]).
Proof.
  unfold visit_optional. destruct (is_none x).
  - intros H. monad_inv H. unfold added. simpl. set_solver.
  - apply visit_value_adds.
Qed.

Lemma mapM_adds (f : value -> M value) (sel : value -> list value)
    (xs rs : list value) (st st' : state) :
  (forall x r st st', f x st = Ok (r, st') ->
                      missing st' = missing st ∪ added (sel x)) ->
  mapM f xs st = Ok (rs, st') ->
  missing st' = missing st ∪ added (flat_map sel xs).
Proof.
  intros Hf. revert rs st.
  induction xs as [|x xs IH]; intros rs st H; simpl in H.
  - monad_inv H. unfold added. simpl. set_solver.
  - monad_inv H. simpl. rewrite added_app.
    rewrite (IH _ _ H2), (Hf _ _ _ _ H0). set_solver.
Qed.

Lemma flat_map_singleton {A : Type} (l : list A) :
  flat_map (fun x => [x]) l = l.
Proof. induction l; simpl; congruence. Qed.

Lemma flat_map_optional (l : list value) :
  flat_map (fun x => if is_none x then [] else [x]) l =
  List.filter (fun x => negb (is_none x)) l.
Proof.
  induction l as [|x l IH]; simpl; [reflexivity|].
  destruct (is_none x); simpl; congruence.
Qed.

Lemma read_adds (n : node) (a : access) (f : string) (r : value)
    (st st' : state) :
  read visit n a f st = Ok (r, st') ->
  exists v, assoc f (fields n ++ attrs n) = Some v /\
            missing st' = missing st ∪ added (visits_of a v).
Proof.
  destruct a; simpl.
  - intros H. monad_inv H. exists r. split; [assumption|].
    unfold added. simpl. set_solver.
  - intros H. apply getattr_bind_Ok in H as (v & Hv & H).
    apply attribute_Ok in Hv. exists v. split; [assumption|].
    now apply visit_value_adds in H.
  - intros H. apply getattr_bind_Ok in H as (v & Hv & H).
    apply attribute_Ok in Hv. exists v. split; [assumption|].
    now apply visit_optional_adds in H.
  - intros H. apply getattr_bind_Ok in H as (v & Hv & H).
    apply attribute_Ok in Hv. exists v. split; [assumption|].
    apply list_map_Ok in H as (l & rs & Hl & Hm & ->).
    apply iter_items in Hl as [-> _].
    apply (mapM_adds _ (fun x => [x])) in Hm.
    + now rewrite flat_map_singleton in Hm.
    + intros. eapply visit_value_adds; eassumption.
  - intros H. apply getattr_bind_Ok in H as (v & Hv & H).
    apply attribute_Ok in Hv. exists v. split; [assumption|].
    apply list_map_Ok in H as (l & rs & Hl & Hm & ->).
    apply iter_items in Hl as [-> _].
    apply (mapM_adds _ (fun x => if is_none x then [] else [x])) in Hm.
    + now rewrite flat_map_optional in Hm.
    + intros. eapply visit_optional_adds; eassumption.
Qed.

Lemma read_entries_adds (n : node) (es : list entry) (own : dict)
    (st st' : state) :
  mapM (read_entry visit n) es st = Ok (own, st') ->
  missing st' = missing st ∪ added (flat_map (entry_visits n) es).
Proof.
  revert own st. induction es as [|e es IH]; intros own st H; simpl in H.
  - monad_inv H. unfold added. simpl. set_solver.
  - apply bind_Ok in H as (kv & st1 & He & H).
    apply bind_Ok in H as (own' & st2 & Hes & H).
    apply ret_Ok in H as [-> ->].
    unfold read_entry in He. apply bind_Ok in He as (w & st3 & Hr & He).
    apply ret_Ok in He as [-> ->].
    apply read_adds in Hr as (v & Hv & Hadd).
    simpl. rewrite added_app. unfold entry_visits at 1. rewrite Hv.
    rewrite (IH _ _ Hes), Hadd. set_solver.
Qed.

Lemma visit_field_adds (fv : string * value) (st st' : state) :
  visit_field visit fv st = Ok (tt, st') ->
  missing st' = missing st ∪ added (field_visits fv).
Proof.
  unfold visit_field, field_visits. destruct fv.2 as [| | | | | | |l| |m].
  1-7,9: intros H; monad_inv H; unfold added; simpl; set_solver.
  - revert st. induction l as [|x l IH]; intros st H; simpl in H.
    + monad_inv H. unfold added. simpl. set_solver.
    + apply bind_Ok in H as ([] & st1 & Hx & H). apply IH in H. rewrite H.
      destruct x; simpl; try (apply ret_Ok in Hx as [_ ->]; reflexivity).
      apply bind_Ok in Hx as (d & st2 & Hx & Hr).
      apply ret_Ok in Hr as [_ ->].
      rewrite added_cons, (visit_adds _ _ _ _ Hx). set_solver.
  - intros H. apply bind_Ok in H as (d & st1 & Hx & H).
    apply ret_Ok in H as [_ ->].
    rewrite added_cons, (visit_adds _ _ _ _ Hx). unfold added. simpl.
    set_solver.
Qed.

Lemma NodeVisitor_generic_visit_adds (n : node) (st st' : state) :
  NodeVisitor_generic_visit visit n st = Ok (tt, st') ->
  missing st' = missing st ∪ added (flat_map field_visits (fields n)).
Proof.
  unfold NodeVisitor_generic_visit. generalize (fields n) as fs.
  induction fs as [|fv fs IH] in st |- *; intros H; simpl in H.
  - monad_inv H. unfold added. simpl. set_solver.
  - apply bind_Ok in H as ([] & st1 & Hf & H). apply visit_field_adds in Hf.
    apply IH in H. simpl. rewrite added_app, H, Hf. set_solver.
Qed.

End Accounting.

Lemma visit_adds_unconverted (depth : nat) (x : value) (st st' : state)
    (r : dict) :
  visit depth x st = Ok (r, st') ->
  missing st' = missing st ∪ unconverted (dispatched depth x).
Proof.
  revert x st st' r.
  induction depth as [|depth IH]; intros x st st' r H; [discriminate|].
  destruct (visit_Ok_node _ _ _ _ _ H) as (depth' & n & [= <-] & ->).
  assert (IH' : forall x st r st', visit depth x st = Ok (r, st') ->
            missing st' = missing st ∪ unconverted (dispatched depth x))
    by eauto.
  cbn [dispatched unconverted].
  destruct (assoc (cls n) shapes) as [sh|] eqn:Hsh.
  - rewrite (proj2 (has_converter_Some _) (ex_intro _ sh Hsh)).
    destruct (visit_converted_Ok _ _ _ _ _ _ Hsh H)
      as (depth' & own & info & [= <-] & Hown & _).
    apply (read_entries_adds _ _ IH') in Hown.
    unfold children. now rewrite Hsh.
  - rewrite (proj2 (has_converter_None _) Hsh).
    destruct (visit_fallback_Ok _ _ _ _ _ Hsh H)
      as (depth' & info & [= <-] & Hg & _).
    apply (NodeVisitor_generic_visit_adds _ _ IH') in Hg. simpl in Hg.
    unfold children. rewrite Hsh, Hg. set_solver.
Qed.

(** The dispatched nodes are nodes of the tree. *)

Lemma all_nodes_ast (n : node) :
  all_nodes (VAst n) =
  n :: flat_map (fun kv => all_nodes kv.2) (fields n ++ attrs n).
Proof. destruct n. simpl. now rewrite flat_map_app. Qed.

Lemma all_nodes_items (v c : value) (m : node) :
  In c (items v) -> In m (all_nodes c) -> In m (all_nodes v).
Proof.
  destruct v; simpl; try tauto.
  - induction s as [|ch s IH]; simpl; [tauto|].
    intros [<-|Hc]; [simpl; tauto|auto].
  - intros Hc. apply in_map_iff in Hc as (z & <- & _). simpl. tauto.
  - intros Hc Hm. apply in_flat_map. eauto.
  - intros Hc. apply in_map_iff in Hc as (k & <- & _). simpl. tauto.
Qed.

Lemma all_nodes_visits_of (a : access) (v c : value) (m : node) :
  In c (visits_of a v) -> In m (all_nodes c) -> In m (all_nodes v).
Proof.
  destruct a; simpl.
  - tauto.
  - intros [<-|[]]. tauto.
  - destruct (is_none v); simpl; [tauto|]. intros [<-|[]]. tauto.
  - apply all_nodes_items.
  - intros Hc. apply filter_In in Hc as [Hc _]. now apply all_nodes_items.
Qed.

Lemma all_nodes_children (n : node) (c : value) (m : node) :
  In c (children n) -> In m (all_nodes c) ->
  In m (flat_map (fun kv => all_nodes kv.2) (fields n ++ attrs n)).
Proof.
  unfold children. intros Hc Hm. apply in_flat_map.
  destruct (assoc (cls n) shapes) as [sh|].
  - apply in_flat_map in Hc as (e & _ & Hc). unfold entry_visits in Hc.
    destruct (assoc e.2 (fields n ++ attrs n)) as [v|] eqn:Hv; [|destruct Hc].
    apply assoc_In in Hv. exists (e.2, v). split; [assumption|].
    simpl. eapply all_nodes_visits_of; eassumption.
  - apply in_flat_map in Hc as ([f v] & Hfv & Hc).
    exists (f, v). split; [apply in_or_app; now left|].
    unfold field_visits in Hc. simpl in *.
    destruct v; simpl in Hc; try destruct Hc.
    + apply filter_In in Hc as [Hc _]. simpl. apply in_flat_map. eauto.
    + now subst c.
    + destruct H.
Qed.

Lemma dispatched_all_nodes (depth : nat) (x : value) (m : node) :
  In m (dispatched depth x) -> In m (all_nodes x).
Proof.
  revert x m. induction depth as [|depth IH]; intros x m; [intros []|].
  destruct x; simpl; try tauto.
  change (In m (n :: flat_map (dispatched depth) (children n)) ->
          In m (all_nodes (VAst n))).
  rewrite all_nodes_ast. intros [<-|Hm]; [now left|right].
  apply in_flat_map in Hm as (c & Hc & Hm).
  eapply all_nodes_children; eauto.
Qed.

Lemma elem_of_unconverted (ns : list node) (kind : string) :
  kind ∈ unconverted ns <->
  exists n, In n ns /\ cls n = kind /\ has_converter kind = false.
Proof.
  induction ns as [|n ns IH]; simpl.
  - split; [set_solver|]. intros (n & [] & _).
  - destruct (has_converter (cls n)) eqn:Hn.
    + rewrite IH. split.
      * intros (m & Hm & Hk). exists m. tauto.
      * intros (m & [<-|Hm] & Hk & Hc); [congruence|eauto].
    + rewrite elem_of_union, elem_of_singleton, IH. split.
      * intros [->|(m & Hm & Hk)]; [exists n; auto|].
        exists m. tauto.
      * intros (m & [<-|Hm] & Hk & Hc); [now left|right; eauto].
Qed.

Lemma unconverted_dispatched_subseteq (depth : nat) (x : value) :
  unconverted (dispatched depth x) ⊆ unconverted (all_nodes x).
Proof.
  intros kind. rewrite !elem_of_unconverted.
  intros (n & Hn & Hk). exists n. split; [|assumption].
  eapply dispatched_all_nodes; eassumption.
Qed.

(** C6, as stated, fails: in [[] == {1}] the kinds without a method are
    [List] and [Set], and after the walk [missing] holds [Set] alone:
    [visit_Compare] never reads [node.left]. *)
Lemma Compare_left_is_not_accounted :
  ~ (forall depth x r st',
       visit depth x initial = Ok (r, st') ->
       missing st' = unconverted (all_nodes x)).
Proof.
  intros H.
  destruct (visit 5 compare_tree initial) as [[r st']|e] eqn:Hv;
    [|vm_compute in Hv; discriminate Hv].
  specialize (H _ _ _ _ Hv).
  assert (Hl : "List" ∈ unconverted (all_nodes compare_tree)).
  { apply (bool_decide_unpack _). vm_compute. reflexivity. }
  rewrite <- H in Hl. revert Hl.
  vm_compute in Hv. injection Hv as _ <-.
  apply (bool_decide_unpack _). vm_compute. reflexivity.
Qed.

(** C6, amended: after a walk that returns, [missing] holds what it held
    before and exactly the kinds without a method among the nodes the walk
    dispatched on, which are kinds of nodes of the tree, each once in the
    report however many nodes had it.  The children of a node are
    dispatched on only where its method reads them: a kind that occurs
    only below the left operand of a [Compare] is not recorded. *)
Theorem missing_kinds_accounting (depth : nat) (x : value) (st st' : state)
    (r : dict) :
  visit depth x st = Ok (r, st') ->
  missing st' = missing st ∪ unconverted (dispatched depth x) /\
  unconverted (dispatched depth x) ⊆ unconverted (all_nodes x) /\
  NoDup (report st') /\
  forall kind, kind ∈ report st' <->
               kind ∈ missing st \/ kind ∈ unconverted (dispatched depth x).
Proof.
  intros H. apply visit_adds_unconverted in H.
  unfold report. split; [assumption|].
  split; [apply unconverted_dispatched_subseteq|].
  split; [apply NoDup_elements|].
  intros kind. rewrite elem_of_elements, H. set_solver.
Qed.

Lemma missing_kinds_accounting_witness :
  exists r st',
    visit 5 compare_tree initial = Ok (r, st') /\
    missing st' = {[ "Set" ]} /\ report st' = ["Set"].
Proof.
  eexists _, _. split; [vm_compute; reflexivity|].
  destruct (missing_kinds_accounting 5 compare_tree initial _ _
              ltac:(vm_compute; reflexivity)) as (Hm & _ & _ & _).
  split; [|vm_compute; reflexivity].
  etransitivity; [exact Hm|].
  apply set_eq. intros kind.
  assert (Hd : unconverted (dispatched 5 compare_tree) = {[ "Set" ]} ∪ ∅).
  { vm_compute. reflexivity. }
  rewrite Hd. set_solver.
Defined.

(** X3: when the walk returns on a node without a method, the record is
    the node's positional metadata followed by ["type"] with the
    placeholder ["Unimplemented: "] and [str(node)]; the kind of the node
    is in [missing], and the report prints it once. *)
Lemma fallback_record (depth : nat) (n : node) (st st' : state) (r : dict) :
  has_converter (cls n) = false ->
  visit depth (VAst n) st = Ok (r, st') ->
  (exists info,
     position_extractor n = Ok info /\
     r = info ++ [("type", VStr ("Unimplemented: " +:+ str n))]) /\
  cls n ∈ missing st' /\
  NoDup (report st') /\ cls n ∈ report st'.
Proof.
  intros Hc H.
  destruct (visit_fallback_Ok _ _ _ _ _ (proj1 (has_converter_None _) Hc) H)
    as (depth' & info & -> & _ & Hinfo & ->).
  apply visit_adds_unconverted in H. cbn [dispatched unconverted] in H.
  rewrite Hc in H.
  assert (Hin : cls n ∈ missing st') by (rewrite H; set_solver).
  split; [eauto|]. split; [assumption|].
  unfold report. split; [apply NoDup_elements|].
  now apply elem_of_elements.
Qed.

Lemma fallback_record_witness :
  exists r st',
    visit 2 (VAst (set_node 0x7f6be0)) initial = Ok (r, st') /\
    assoc "type" r =
      Some (VStr "Unimplemented: <ast.Set object at 0x7f6be0>") /\
    report st' = ["Set"].
Proof.
  eexists _, _. split; [vm_compute; reflexivity|].
  destruct (fallback_record 2 (set_node 0x7f6be0) initial _ _ eq_refl
              ltac:(vm_compute; reflexivity))
    as ((info & Hinfo & Hr) & _ & _ & _).
  split; [|vm_compute; reflexivity].
  injection Hinfo as <-. reflexivity.
Defined.

(** ** Copies of a tree *)

Lemma forget_ast (n : node) : forget (VAst n) = VAst (forget_node n).
Proof. now destruct n. Qed.

Lemma forget_plain (v : value) : plain v = true -> forget v = v.
Proof.
  induction v as [| | | | | | |l IH|d IH|c i f a _ _] using value_induction;
    simpl; try reflexivity; try discriminate.
  - intros H. f_equal. induction IH as [|x l Hx _ IHl]; [reflexivity|].
    simpl in H. apply andb_prop in H as [H1 H2].
    simpl. now rewrite Hx, IHl.
  - intros H. f_equal. induction IH as [|[k x] l Hx _ IHl]; [reflexivity|].
    simpl in H. apply andb_prop in H as [H1 H2].
    simpl in *. now rewrite Hx, IHl.
Qed.

Lemma forget_eq_plain (v w : value) :
  forget v = forget w -> plain w = true -> v = w.
Proof.
  intros E Hw. rewrite (forget_plain _ Hw) in E. subst w.
  revert Hw.
  induction v as [| | | | | | |l IH|d IH|c i f a _ _] using value_induction;
    simpl; try reflexivity; try discriminate.
  - intros H. f_equal. induction IH as [|x l Hx _ IHl]; [reflexivity|].
    simpl in H. apply andb_prop in H as [H1 H2].
    simpl. now rewrite <- Hx, <- IHl.
  - intros H. f_equal. induction IH as [|[k x] l Hx _ IHl]; [reflexivity|].
    simpl in H. apply andb_prop in H as [H1 H2].
    simpl in *. now rewrite <- Hx, <- IHl.
Qed.

Lemma assoc_forget (k : string) (d : dict) :
  assoc k (forget_dict d) = forget <$> assoc k d.
Proof.
  induction d as [|[k' v] d IH]; simpl; [reflexivity|].
  now destruct (String.eqb k k').
Qed.

Lemma keys_forget (d : dict) : keys (forget_dict d) = keys d.
Proof. unfold keys, forget_dict. rewrite map_map. reflexivity. Qed.

Lemma forget_dict_set (d : dict) (k : string) (v : value) :
  forget_dict (dict_set d k v) = dict_set (forget_dict d) k (forget v).
Proof.
  induction d as [|[k' v'] d IH]; simpl; [reflexivity|].
  destruct (String.eqb k k'); simpl; [reflexivity|]. now rewrite IH.
Qed.

Lemma forget_dict_or (a b : dict) :
  forget_dict (dict_or a b) = dict_or (forget_dict a) (forget_dict b).
Proof.
  unfold dict_or. revert a.
  induction b as [|[k v] b IH]; intros a; simpl; [reflexivity|].
  now rewrite IH, forget_dict_set.
Qed.

Section Copies.

Variables n1 n2 : node.
Hypothesis same_node : forget_node n1 = forget_node n2.

Lemma copies_cls : cls n1 = cls n2.
Proof. now injection same_node. Qed.

Lemma copies_assoc (name : string) :
  forget <$> assoc name (fields n1 ++ attrs n1) =
  forget <$> assoc name (fields n2 ++ attrs n2).
Proof.
  injection same_node as _ Hf Ha.
  rewrite <- !assoc_forget. unfold forget_dict in *.
  now rewrite !map_app, Hf, Ha.
Qed.

Lemma copies_attribute (name : string) (v1 : value) :
  attribute n1 name = Ok v1 ->
  exists v2, attribute n2 name = Ok v2 /\ forget v2 = forget v1.
Proof.
  rewrite attribute_Ok. intros H1.
  pose proof (copies_assoc name) as E. rewrite H1 in E.
  destruct (assoc name (fields n2 ++ attrs n2)) as [v2|] eqn:H2;
    [|discriminate].
  injection E as E. exists v2. now rewrite attribute_Ok.
Qed.

Lemma copies_position (info1 : dict) :
  position_extractor n1 = Ok info1 ->
  exists info2,
    position_extractor n2 = Ok info2 /\ forget_dict info2 = forget_dict info1.
Proof.
  unfold position_extractor.
  destruct (attribute n1 "lineno") as [l|] eqn:Hl; [|discriminate].
  destruct (attribute n1 "col_offset") as [c|] eqn:Hc; [|discriminate].
  destruct (attribute n1 "end_lineno") as [el|] eqn:Hel; [|discriminate].
  destruct (attribute n1 "end_col_offset") as [ec|] eqn:Hec; [|discriminate].
  intros [= <-].
  apply copies_attribute in Hl as (l' & -> & El), Hc as (c' & -> & Ec),
    Hel as (el' & -> & Eel), Hec as (ec' & -> & Eec).
  eexists. split; [reflexivity|]. simpl. rewrite El, Ec, Eel, Eec.
  do 5 f_equal.
  pose proof (copies_assoc "type_comment") as E.
  destruct (assoc "type_comment" (fields n1 ++ attrs n1)),
    (assoc "type_comment" (fields n2 ++ attrs n2)); try discriminate;
    [injection E as E; simpl; now rewrite E|reflexivity].
Qed.

End Copies.

Lemma copies_is_none (v1 v2 : value) :
  forget v1 = forget v2 -> is_none v1 = is_none v2.
Proof. destruct v1, v2; simpl; try reflexivity; discriminate. Qed.

Lemma copies_items (v1 v2 : value) :
  forget v1 = forget v2 -> map forget (items v1) = map forget (items v2).
Proof.
  destruct v1, v2; simpl; try reflexivity; try discriminate;
    try (intros [= <-]; reflexivity).
  intros [= E]. rewrite !map_map. simpl.
  assert (Hk : keys d = keys d0).
  { apply (f_equal keys) in E.
    change (keys (forget_dict d) = keys (forget_dict d0)) in E.
    now rewrite !keys_forget in E. }
  now rewrite Hk.
Qed.

Lemma copies_iter (v1 v2 : value) (l1 : list value) (st st' : state) :
  forget v1 = forget v2 -> iter v1 st = Ok (l1, st') ->
  iter v2 st = Ok (items v2, st) /\ items v1 = l1 /\ st' = st.
Proof.
  intros E H. pose proof (iter_items _ _ _ _ H) as [<- ->].
  split; [|auto].
  destruct v1; try discriminate H; destruct v2; try discriminate E;
    reflexivity.
Qed.

Lemma converted_only_app (ns ms : list node) :
  converted_only (ns ++ ms) <-> converted_only ns /\ converted_only ms.
Proof. apply Forall_app. Qed.

Section CopiesWalk.

(** One level of the walk on two copies: [visit] is [self.visit] as the
    methods call it, and it returns the same record on copies when the
    nodes [disp x] it dispatches on all have a method. *)
Variable visit : visitor.
Variable disp : value -> list node.

Hypothesis visit_copies : forall x y st r st',
  forget x = forget y -> converted_only (disp x) ->
  visit x st = Ok (r, st') ->
  exists r', visit y st = Ok (r', st') /\ forget_dict r' = forget_dict r.

Let ok (xs : list value) : Prop := converted_only (flat_map disp xs).

Lemma visit_value_copies (x y r : value) (st st' : state) :
  forget x = forget y -> ok [x] ->
  visit_value visit x st = Ok (r, st') ->
  exists r', visit_value visit y st = Ok (r', st') /\ forget r' = forget r.
Proof.
  unfold ok, visit_value. simpl. rewrite app_nil_r. intros E Hok H.
  apply bind_Ok in H as (d & st1 & Hd & H). apply ret_Ok in H as [-> ->].
  destruct (visit_copies _ _ _ _ _ E Hok Hd) as (d' & Hd' & Ed).
  exists (VDict d'). split.
  - apply bind_Ok. now exists d', st1.
  - simpl. f_equal. exact Ed.
Qed.

Lemma visit_optional_copies (x y r : value) (st st' : state) :
  forget x = forget y -> ok (if is_none x then [] else [x]) ->
  visit_optional visit x st = Ok (r, st') ->
  exists r', visit_optional visit y st = Ok (r', st') /\ forget r' = forget r.
Proof.
  unfold visit_optional. intros E. rewrite <- (copies_is_none _ _ E).
  destruct (is_none x).
  - intros _ H. apply ret_Ok in H as [-> ->]. now exists VNone.
  - now apply visit_value_copies.
Qed.

Lemma mapM_copies (f : value -> M value) (sel : value -> list value) :
  (forall x y r st st',
     forget x = forget y -> ok (sel x) -> f x st = Ok (r, st') ->
     exists r', f y st = Ok (r', st') /\ forget r' = forget r) ->
  forall xs ys rs st st',
    map forget xs = map forget ys -> ok (flat_map sel xs) ->
    mapM f xs st = Ok (rs, st') ->
    exists rs', mapM f ys st = Ok (rs', st') /\ map forget rs' = map forget rs.
Proof.
  intros Hf. induction xs as [|x xs IH]; intros ys rs st st' E Hok H.
  - destruct ys; [|discriminate]. apply ret_Ok in H as [-> ->].
    now exists [].
  - destruct ys as [|y ys]; [discriminate|]. injection E as Ex Exs.
    simpl in H, Hok. unfold ok in Hok.
    rewrite flat_map_app in Hok. apply converted_only_app in Hok as [Hx Hxs].
    apply bind_Ok in H as (r & st1 & Hr & H).
    apply bind_Ok in H as (rs0 & st2 & Hrs & H). apply ret_Ok in H as [-> ->].
    destruct (Hf _ _ _ _ _ Ex Hx Hr) as (r' & Hr' & Er).
    destruct (IH _ _ _ _ Exs Hxs Hrs) as (rs' & Hrs' & Ers).
    exists (r' :: rs'). split.
    + simpl. apply bind_Ok. exists r', st1. split; [assumption|].
      apply bind_Ok. now exists rs', st2.
    + simpl. now rewrite Er, Ers.
Qed.

Variables n1 n2 : node.
Hypothesis same_node : forget_node n1 = forget_node n2.

Lemma list_map_copies (f : value -> M value) (sel : value -> list value)
    (v1 v2 r : value) (st st' : state) :
  (forall x y r st st',
     forget x = forget y -> ok (sel x) -> f x st = Ok (r, st') ->
     exists r', f y st = Ok (r', st') /\ forget r' = forget r) ->
  forget v1 = forget v2 -> ok (flat_map sel (items v1)) ->
  list_map f v1 st = Ok (r, st') ->
  exists r', list_map f v2 st = Ok (r', st') /\ forget r' = forget r.
Proof.
  intros Hf E Hok H. apply list_map_Ok in H as (l & rs & Hl & Hm & ->).
  destruct (copies_iter _ _ _ _ _ E Hl) as (Hl2 & <- & _).
  destruct (mapM_copies f sel Hf _ (items v2) _ _ _ (copies_items _ _ E) Hok Hm)
    as (rs' & Hm' & Ers).
  exists (VList rs'). split.
  - apply list_map_Ok. now exists (items v2), rs'.
  - simpl. now rewrite Ers.
Qed.

Lemma read_copies (key : string) (a : access) (f : string) (r : value)
    (st st' : state) :
  ok (entry_visits n1 (key, a, f)) ->
  read visit n1 a f st = Ok (r, st') ->
  exists r', read visit n2 a f st = Ok (r', st') /\ forget r' = forget r.
Proof.
  unfold entry_visits. simpl. destruct a; simpl; intros Hok H.
  - apply getattr_Ok in H as [H ->]. apply attribute_Ok in H.
    destruct (copies_attribute _ _ same_node _ _ H) as (v2 & Hv2 & E).
    exists v2. split; [|assumption].
    apply getattr_Ok. now rewrite <- attribute_Ok.
  - apply getattr_bind_Ok in H as (v1 & Hv1 & H).
    destruct (copies_attribute _ _ same_node _ _ Hv1) as (v2 & Hv2 & E).
    apply attribute_Ok in Hv1. rewrite Hv1 in Hok.
    destruct (visit_value_copies _ v2 _ _ _ (eq_sym E) Hok H) as (r' & Hr' & Er).
    exists r'. split; [|assumption]. apply getattr_bind_Ok. eauto.
  - apply getattr_bind_Ok in H as (v1 & Hv1 & H).
    destruct (copies_attribute _ _ same_node _ _ Hv1) as (v2 & Hv2 & E).
    apply attribute_Ok in Hv1. rewrite Hv1 in Hok.
    destruct (visit_optional_copies _ v2 _ _ _ (eq_sym E) Hok H)
      as (r' & Hr' & Er).
    exists r'. split; [|assumption]. apply getattr_bind_Ok. eauto.
  - apply getattr_bind_Ok in H as (v1 & Hv1 & H).
    destruct (copies_attribute _ _ same_node _ _ Hv1) as (v2 & Hv2 & E).
    apply attribute_Ok in Hv1. rewrite Hv1 in Hok.
    rewrite <- (flat_map_singleton (items v1)) in Hok.
    destruct (list_map_copies _ (fun x => [x]) v1 v2 _ _ _
                visit_value_copies (eq_sym E) Hok H) as (r' & Hr' & Er).
    exists r'. split; [|assumption]. apply getattr_bind_Ok. eauto.
  - apply getattr_bind_Ok in H as (v1 & Hv1 & H).
    destruct (copies_attribute _ _ same_node _ _ Hv1) as (v2 & Hv2 & E).
    apply attribute_Ok in Hv1. rewrite Hv1 in Hok.
    rewrite <- flat_map_optional in Hok.
    destruct (list_map_copies _ (fun x => if is_none x then [] else [x])
                v1 v2 _ _ _ visit_optional_copies (eq_sym E) Hok H)
      as (r' & Hr' & Er).
    exists r'. split; [|assumption]. apply getattr_bind_Ok. eauto.
Qed.

Lemma read_entries_copies (es : list entry) (own : dict) (st st' : state) :
  ok (flat_map (entry_visits n1) es) ->
  mapM (read_entry visit n1) es st = Ok (own, st') ->
  exists own',
    mapM (read_entry visit n2) es st = Ok (own', st') /\
    forget_dict own' = forget_dict own.
Proof.
  revert own st. induction es as [|[[key a] f] es IH]; intros own st Hok H.
  - apply ret_Ok in H as [-> ->]. now exists [].
  - simpl in H, Hok. unfold ok in Hok.
    rewrite flat_map_app in Hok. apply converted_only_app in Hok as [He Hes].
    apply bind_Ok in H as (kv & st1 & Hkv & H).
    apply bind_Ok in H as (own0 & st2 & Hown & H).
    apply ret_Ok in H as [-> ->].
    unfold read_entry in Hkv. simpl in Hkv.
    apply bind_Ok in Hkv as (v & st3 & Hv & Hkv).
    apply ret_Ok in Hkv as [-> ->].
    destruct (read_copies key a f _ _ _ He Hv) as (v' & Hv' & Ev).
    destruct (IH _ _ Hes Hown) as (own' & Hown' & Eown).
    exists ((key, v') :: own'). split.
    + simpl. apply bind_Ok. exists (key, v'), st3. split.
      * unfold read_entry. simpl. apply bind_Ok. now exists v', st3.
      * apply bind_Ok. now exists own', st2.
    + simpl. now rewrite Ev, Eown.
Qed.

End CopiesWalk.

Lemma visit_copies (depth : nat) (x y : value) (st st' : state) (r : dict) :
  forget x = forget y -> converted_only (dispatched depth x) ->
  visit depth x st = Ok (r, st') ->
  exists r', visit depth y st = Ok (r', st') /\ forget_dict r' = forget_dict r.
Proof.
  revert x y st st' r.
  induction depth as [|depth IH]; intros x y st st' r E Hok H; [discriminate|].
  destruct (visit_Ok_node _ _ _ _ _ H) as (depth' & n1 & [= <-] & ->).
  assert (IH' : forall x y st r st',
            forget x = forget y -> converted_only (dispatched depth x) ->
            visit depth x st = Ok (r, st') ->
            exists r', visit depth y st = Ok (r', st') /\
                       forget_dict r' = forget_dict r) by eauto.
  destruct y as [| | | | | | | | |n2]; try (destruct n1; discriminate E).
  rewrite !forget_ast in E.
  assert (En : forget_node n1 = forget_node n2) by congruence. clear E.
  cbn [dispatched] in Hok. apply Forall_cons in Hok as [Hc Hok].
  apply has_converter_Some in Hc as [sh Hsh].
  destruct (visit_converted_Ok _ _ _ _ _ _ Hsh H)
    as (depth' & own & info & [= <-] & Hown & Hinfo & _ & ->).
  unfold children in Hok. rewrite Hsh in Hok.
  destruct (read_entries_copies _ _ IH' _ _ En _ _ _ _ Hok Hown)
    as (own' & Hown' & Eown).
  assert (Hinfo' : exists info',
            (if merges sh then position_extractor n2 = Ok info'
             else info' = []) /\ forget_dict info' = forget_dict info).
  { destruct (merges sh).
    - now apply (copies_position n1 n2 En).
    - subst info. now exists []. }
  destruct Hinfo' as (info' & Hinfo' & Einfo).
  exists (dict_or (("type", VStr (cls n2)) :: own') info'). split.
  - rewrite visit_node, <- (copies_cls _ _ En), Hsh.
    apply run_shape_Ok. exists own', info'.
    now rewrite (copies_cls _ _ En).
  - rewrite !forget_dict_or. simpl.
    now rewrite Eown, Einfo, (copies_cls _ _ En).
Qed.

(** C7, as stated, fails: two copies of [{1}] get different records, for
    the placeholder carries the address of the node. *)
Lemma placeholder_tells_copies_apart :
  ~ (forall depth x y st rx sx ry sy,
       forget x = forget y ->
       visit depth x st = Ok (rx, sx) -> visit depth y st = Ok (ry, sy) ->
       rx = ry).
Proof.
  intros H.
  specialize (H 3 (VAst (set_node 0x7f6be0)) (VAst (set_node 0x7e2be0))
                initial _ _ _ _ eq_refl
                ltac:(vm_compute; reflexivity) ltac:(vm_compute; reflexivity)).
  discriminate H.
Qed.

(** C7, amended: on two copies of a tree, walked from the same state, the
    walk returns the same record when no node it dispatches on falls to
    the fallback (the record then holds no placeholder) and the record is
    one that can be written as JSON. *)
Theorem conversion_of_copies (depth : nat) (x y : value) (st st' : state)
    (r : dict) :
  forget x = forget y ->
  converted_only (dispatched depth x) ->
  visit depth x st = Ok (r, st') ->
  plain (VDict r) = true ->
  visit depth y st = Ok (r, st').
Proof.
  intros E Hok H Hplain.
  destruct (visit_copies _ _ _ _ _ _ E Hok H) as (r' & Hr' & Er).
  assert (Ev : VDict r' = VDict r).
  { apply forget_eq_plain; [|assumption]. simpl. f_equal. exact Er. }
  now injection Ev as <-.
Qed.

Lemma conversion_of_copies_witness :
  exists r st',
    visit 5 assign_tree initial = Ok (r, st') /\
    visit 5 assign_tree_again initial = Ok (r, st').
Proof.
  eexists _, _. split; [vm_compute; reflexivity|].
  apply (conversion_of_copies 5 assign_tree assign_tree_again initial).
  - reflexivity.
  - apply (bool_decide_unpack _). vm_compute. reflexivity.
  - vm_compute. reflexivity.
  - vm_compute. reflexivity.
Defined.

(** ** Trees on which the walk returns *)

Section Returns.

(** One level of the walk: [visit] returns on the values that are [good]. *)
Variable visit : visitor.
Variable good : value -> Prop.

Hypothesis visit_good : forall x st,
  good x -> exists r st', visit x st = Ok (r, st').

Lemma visit_value_returns (x : value) (st : state) :
  good x -> exists r st', visit_value visit x st = Ok (r, st').
Proof.
  intros Hx. destruct (visit_good x st Hx) as (d & st' & Hd).
  exists (VDict d), st'. apply bind_Ok. now exists d, st'.
Qed.

Lemma visit_optional_returns (x : value) (st : state) :
  (is_none x = false -> good x) ->
  exists r st', visit_optional visit x st = Ok (r, st').
Proof.
  unfold visit_optional. destruct (is_none x).
  - intros _. now exists VNone, st.
  - intros Hx. apply visit_value_returns. auto.
Qed.

Lemma mapM_returns {A B : Type} (f : A -> M B) (fine : A -> Prop)
    (xs : list A) (st : state) :
  (forall x st, fine x -> exists r st', f x st = Ok (r, st')) ->
  Forall fine xs ->
  exists rs st', mapM f xs st = Ok (rs, st').
Proof.
  intros Hf Hxs. revert st.
  induction Hxs as [|x xs Hx _ IH]; intros st.
  - now exists [], st.
  - destruct (Hf x st Hx) as (r & st1 & Hr).
    destruct (IH st1) as (rs & st2 & Hrs).
    exists (r :: rs), st2. simpl. apply bind_Ok. exists r, st1.
    split; [assumption|]. apply bind_Ok. now exists rs, st2.
Qed.

Lemma forM_returns {A : Type} (f : A -> M unit) (fine : A -> Prop)
    (xs : list A) (st : state) :
  (forall x st, fine x -> exists st', f x st = Ok (tt, st')) ->
  Forall fine xs ->
  exists st', forM_ xs f st = Ok (tt, st').
Proof.
  intros Hf Hxs. revert st.
  induction Hxs as [|x xs Hx _ IH]; intros st.
  - now exists st.
  - destruct (Hf x st Hx) as (st1 & Hr).
    destruct (IH st1) as (st2 & Hrs).
    exists st2. simpl. apply bind_Ok. now exists tt, st1.
Qed.

Lemma read_returns (n : node) (a : access) (f : string) (v : value)
    (st : state) :
  assoc f (fields n ++ attrs n) = Some v ->
  fits a v = true ->
  Forall good (visits_of a v) ->
  exists r st', read visit n a f st = Ok (r, st').
Proof.
  intros Hv Hfit Hgood. apply attribute_Ok in Hv.
  destruct a; simpl in *.
  - exists v, st. apply getattr_Ok. now rewrite <- attribute_Ok.
  - apply Forall_cons in Hgood as [Hgood _].
    destruct (visit_value_returns v st Hgood) as (r & st' & Hr).
    exists r, st'. apply getattr_bind_Ok. eauto.
  - destruct (visit_optional_returns v st) as (r & st' & Hr).
    { intros Hn. rewrite Hn in Hgood. now apply Forall_cons in Hgood. }
    exists r, st'. apply getattr_bind_Ok. eauto.
  - destruct v; try discriminate. simpl in Hgood.
    destruct (mapM_returns (visit_value visit) good l st) as (rs & st' & Hrs);
      [intros; now apply visit_value_returns|assumption|].
    exists (VList rs), st'. apply getattr_bind_Ok. exists (VList l).
    split; [assumption|]. apply list_map_Ok. now exists l, rs.
  - destruct v; try discriminate. simpl in Hgood.
    destruct (mapM_returns (visit_optional visit)
                (fun x => is_none x = false -> good x) l st)
      as (rs & st' & Hrs).
    + intros; now apply visit_optional_returns.
    + apply Forall_forall. intros x Hx Hn.
      rewrite Forall_forall in Hgood. apply Hgood.
      apply list_elem_of_In, filter_In. split; [now apply list_elem_of_In|].
      now rewrite Hn.
    + exists (VList rs), st'. apply getattr_bind_Ok. exists (VList l).
      split; [assumption|]. apply list_map_Ok. now exists l, rs.
Qed.

Lemma read_entries_returns (n : node) (es : list entry) (st : state) :
  forallb (fun e : entry =>
             match assoc e.2 (fields n ++ attrs n) with
             | Some v => fits e.1.2 v
             | None => false
             end) es = true ->
  Forall good (flat_map (entry_visits n) es) ->
  exists own st', mapM (read_entry visit n) es st = Ok (own, st').
Proof.
  revert st. induction es as [|[[key a] f] es IH]; intros st Hfit Hgood.
  - now exists [], st.
  - simpl in Hfit, Hgood. apply andb_prop in Hfit as [Hf Hfit].
    apply Forall_app in Hgood as [Hg Hgood]. unfold entry_visits in Hg.
    simpl in Hg.
    destruct (assoc f (fields n ++ attrs n)) as [v|] eqn:Hv; [|discriminate].
    destruct (read_returns n a f v st Hv Hf Hg) as (r & st1 & Hr).
    destruct (IH st1 Hfit Hgood) as (own & st2 & Hown).
    exists ((key, r) :: own), st2. simpl. apply bind_Ok.
    exists (key, r), st1. split.
    + unfold read_entry. simpl. apply bind_Ok. now exists r, st1.
    + apply bind_Ok. now exists own, st2.
Qed.

Lemma NodeVisitor_generic_visit_returns (n : node) (st : state) :
  Forall good (flat_map field_visits (fields n)) ->
  exists st', NodeVisitor_generic_visit visit n st = Ok (tt, st').
Proof.
  unfold NodeVisitor_generic_visit. generalize (fields n) as fs.
  intros fs Hgood.
  apply (forM_returns _ (fun fv => Forall good (field_visits fv))).
  - clear Hgood. intros [f v] st0. unfold visit_field, field_visits. simpl.
    destruct v; try (intros _; now exists st0).
    + intros Hl. apply (forM_returns _ (fun x => is_ast x = true -> good x)).
      * intros x st1 Hx. destruct x; try now exists st1.
        destruct (visit_good _ st1 (Hx eq_refl)) as (d & st2 & Hd).
        exists st2. apply bind_Ok. now exists d, st2.
      * apply Forall_forall. intros x Hx Ha.
        rewrite Forall_forall in Hl. apply Hl.
        apply list_elem_of_In, filter_In. split; [|assumption].
        now apply list_elem_of_In.
    + intros Hg. apply Forall_cons in Hg as [Hg _].
      destruct (visit_good _ st0 Hg) as (d & st1 & Hd).
      exists st1. apply bind_Ok. now exists d, st1.
  - induction fs as [|fv fs IH]; [constructor|].
    simpl in Hgood. apply Forall_app in Hgood as [H1 H2].
    constructor; auto.
Qed.

End Returns.

Lemma height_In (d : dict) (k : string) (v : value) :
  In (k, v) d -> height v <= foldr (fun kv h => Nat.max (height kv.2) h) 0 d.
Proof.
  induction d as [|kv d IH]; simpl; [tauto|].
  intros [->|H]; simpl; [lia|]. specialize (IH H). lia.
Qed.

Lemma height_attribute (n : node) (k : string) (v : value) :
  In (k, v) (fields n ++ attrs n) -> height v < height (VAst n).
Proof.
  destruct n as [c i f a]. simpl. intros H.
  apply in_app_or in H as [H|H]; apply height_In in H; lia.
Qed.

Lemma height_items (v c : value) : In c (items v) -> height c <= height v.
Proof.
  destruct v; simpl; try tauto.
  - induction s as [|ch s IH]; simpl; [tauto|].
    intros [<-|H]; [reflexivity|auto].
  - intros H. apply in_map_iff in H as (z & <- & _). reflexivity.
  - induction l as [|x l IH]; simpl; [tauto|].
    intros [->|H]; [lia|]. specialize (IH H). lia.
  - intros H. apply in_map_iff in H as (k & <- & _). simpl. lia.
Qed.

Lemma height_visits_of (a : access) (v c : value) :
  In c (visits_of a v) -> height c <= height v.
Proof.
  destruct a; simpl.
  - tauto.
  - intros [<-|[]]. reflexivity.
  - destruct (is_none v); simpl; [tauto|]. intros [<-|[]]. reflexivity.
  - apply height_items.
  - intros H. apply filter_In in H as [H _]. now apply height_items.
Qed.

Lemma height_children (n : node) (c : value) :
  In c (children n) -> height c < height (VAst n).
Proof.
  unfold children. intros Hc.
  destruct (assoc (cls n) shapes) as [sh|].
  - apply in_flat_map in Hc as (e & _ & Hc). unfold entry_visits in Hc.
    destruct (assoc e.2 (fields n ++ attrs n)) as [v|] eqn:Hv; [|destruct Hc].
    apply assoc_In, height_attribute in Hv.
    apply height_visits_of in Hc. lia.
  - apply in_flat_map in Hc as ([f v] & Hfv & Hc).
    assert (Hv : height v < height (VAst n)).
    { apply (height_attribute n f). apply in_or_app. now left. }
    unfold field_visits in Hc. simpl in Hc.
    destruct v; simpl in Hc; try destruct Hc.
    + apply filter_In in Hc as [Hc _].
      apply (height_items (VList l)) in Hc. lia.
    + now subst c.
    + destruct H.
Qed.

Lemma fits_visits_of (a : access) (v c : value) :
  fits a v = true -> In c (visits_of a v) -> is_ast c = true.
Proof.
  destruct a; simpl.
  - tauto.
  - intros H [<-|[]]. exact H.
  - destruct (is_none v); simpl; [tauto|]. intros H [<-|[]]. exact H.
  - destruct v; try discriminate. simpl. intros H Hc.
    rewrite forallb_forall in H. auto.
  - destruct v; try discriminate. simpl. intros H Hc.
    apply filter_In in Hc as [Hc Hn]. rewrite forallb_forall in H.
    specialize (H _ Hc). now destruct (is_none c).
Qed.

Lemma ready_children (n : node) (c : value) :
  ready n = true -> In c (children n) -> is_ast c = true.
Proof.
  unfold ready, children. destruct (assoc (cls n) shapes) as [sh|].
  - intros H Hc. apply andb_prop in H as [H _].
    rewrite forallb_forall in H.
    apply in_flat_map in Hc as (e & He & Hc). specialize (H e He).
    unfold entry_visits in Hc.
    destruct (assoc e.2 (fields n ++ attrs n)) as [v|]; [|destruct Hc].
    eapply fits_visits_of; eassumption.
  - intros _ Hc. apply in_flat_map in Hc as ([f v] & _ & Hc).
    unfold field_visits in Hc. simpl in Hc.
    destruct v; simpl in Hc; try destruct Hc.
    + now apply filter_In in Hc as [_ Hc].
    + now subst c.
    + destruct H.
Qed.

(** The walk returns when [self.visit] may nest as deep as the [ast]
    objects of the tree do and every node it dispatches on is ready for
    its method. *)
Lemma visit_returns_within (depth : nat) (x : value) (st : state) :
  is_ast x = true ->
  height x <= depth ->
  Forall (fun n => ready n = true) (dispatched depth x) ->
  exists r st', visit depth x st = Ok (r, st').
Proof.
  revert x st. induction depth as [|depth IH]; intros x st Hx Hh Hr.
  - destruct x as [| | | | | | | | |[c i f a]]; try discriminate.
    simpl in Hh. lia.
  - destruct x as [| | | | | | | | |n]; try discriminate.
    cbn [dispatched] in Hr. apply Forall_cons in Hr as [Hn Hr].
    set (good := fun c => is_ast c = true /\ height c <= depth /\
                          Forall (fun n => ready n = true) (dispatched depth c)).
    assert (Hgood : forall c st, good c ->
                      exists r st', visit depth c st = Ok (r, st')).
    { intros c st0 (H1 & H2 & H3). now apply IH. }
    assert (Hch : Forall good (children n)).
    { apply Forall_forall. intros c Hc. apply list_elem_of_In in Hc.
      split; [eapply ready_children; eassumption|]. split.
      - apply height_children in Hc. lia.
      - rewrite Forall_forall in Hr |- *. intros m Hm. apply Hr.
        apply list_elem_of_In, in_flat_map. exists c.
        split; [assumption|now apply list_elem_of_In]. }
    rewrite visit_node. unfold ready in Hn. unfold children in Hch.
    destruct (assoc (cls n) shapes) as [sh|].
    + apply andb_prop in Hn as [Hfit Hpos].
      destruct (read_entries_returns _ _ Hgood n _ st Hfit Hch)
        as (own & st' & Hown).
      assert (Hinfo : exists info,
                if merges sh then position_extractor n = Ok info
                else info = []).
      { unfold has_position in Hpos. destruct (merges sh); [|now exists []].
        destruct (position_extractor n) as [info|]; [eauto|discriminate]. }
      destruct Hinfo as (info & Hinfo).
      eexists _, st'. apply run_shape_Ok. now exists own, info.
    + unfold has_position in Hn.
      destruct (position_extractor n) as [info|] eqn:Hinfo; [|discriminate].
      destruct (NodeVisitor_generic_visit_returns _ _ Hgood n
                  (State ({[ cls n ]} ∪ missing st)
                         (stdout st ++ ["Unimplemented Node: " +:+ str n]))
                  Hch) as (st' & Hg).
      eexists _, st'. apply generic_visit_fallback_Ok. now exists info.
Qed.


(** ** What the walk prints *)

Lemma diagnostics_app (ns ms : list node) :
  diagnostics (ns ++ ms) = diagnostics ns ++ diagnostics ms.
Proof.
  induction ns as [|n ns IH]; simpl; [reflexivity|].
  destruct (has_converter (cls n)); simpl; now rewrite IH.
Qed.

Section Printing.

(** One level of the walk: [visit] is [self.visit] as the methods call it,
    and it prints the diagnostics of the nodes [disp x], in order. *)
Variable visit : visitor.
Variable disp : value -> list node.

Hypothesis visit_prints : forall x st r st',
  visit x st = Ok (r, st') ->
  stdout st' = stdout st ++ diagnostics (disp x).

Let printed (xs : list value) : list string := diagnostics (flat_map disp xs).

Lemma printed_app (xs ys : list value) :
  printed (xs ++ ys) = printed xs ++ printed ys.
Proof. unfold printed. now rewrite flat_map_app, diagnostics_app. Qed.

Lemma printed_cons (x : value) (xs : list value) :
  printed (x :: xs) = diagnostics (disp x) ++ printed xs.
Proof. unfold printed. simpl. now rewrite diagnostics_app. Qed.

Lemma visit_value_prints (x r : value) (st st' : state) :
  visit_value visit x st = Ok (r, st') ->
  stdout st' = stdout st ++ printed [x].
Proof.
  unfold visit_value. intros H.
  apply bind_Ok in H as (d & st1 & Hd & H). apply ret_Ok in H as [-> ->].
  rewrite (visit_prints _ _ _ _ Hd), printed_cons. unfold printed. simpl.
  now rewrite app_nil_r.
Qed.

Lemma visit_optional_prints (x r : value) (st st' : state) :
  visit_optional visit x st = Ok (r, st') ->
  stdout st' = stdout st ++ printed (if is_none x then [] else [x]).
Proof.
  unfold visit_optional. destruct (is_none x).
  - intros H. apply ret_Ok in H as [-> ->]. unfold printed. simpl.
    now rewrite app_nil_r.
  - apply visit_value_prints.
Qed.

Lemma mapM_prints (f : value -> M value) (sel : value -> list value)
    (xs rs : list value) (st st' : state) :
  (forall x r st st', f x st = Ok (r, st') ->
                      stdout st' = stdout st ++ printed (sel x)) ->
  mapM f xs st = Ok (rs, st') ->
  stdout st' = stdout st ++ printed (flat_map sel xs).
Proof.
  intros Hf. revert rs st.
  induction xs as [|x xs IH]; intros rs st H; simpl in H.
  - apply ret_Ok in H as [-> ->]. unfold printed. simpl.
    now rewrite app_nil_r.
  - apply bind_Ok in H as (y & st1 & Hy & H).
    apply bind_Ok in H as (ys & st2 & Hys & H). apply ret_Ok in H as [-> ->].
    simpl. rewrite printed_app, (IH _ _ Hys), (Hf _ _ _ _ Hy).
    now rewrite app_assoc.
Qed.

Lemma read_prints (n : node) (a : access) (f : string) (r : value)
    (st st' : state) :
  read visit n a f st = Ok (r, st') ->
  exists v, assoc f (fields n ++ attrs n) = Some v /\
            stdout st' = stdout st ++ printed (visits_of a v).
Proof.
  destruct a; simpl.
  - intros H. apply getattr_Ok in H as [H ->]. exists r.
    split; [assumption|]. unfold printed. simpl. now rewrite app_nil_r.
  - intros H. apply getattr_bind_Ok in H as (v & Hv & H).
    apply attribute_Ok in Hv. exists v. split; [assumption|].
    now apply visit_value_prints in H.
  - intros H. apply getattr_bind_Ok in H as (v & Hv & H).
    apply attribute_Ok in Hv. exists v. split; [assumption|].
    now apply visit_optional_prints in H.
  - intros H. apply getattr_bind_Ok in H as (v & Hv & H).
    apply attribute_Ok in Hv. exists v. split; [assumption|].
    apply list_map_Ok in H as (l & rs & Hl & Hm & ->).
    apply iter_items in Hl as [-> _].
    apply (mapM_prints _ (fun x => [x])) in Hm.
    + now rewrite flat_map_singleton in Hm.
    + intros. eapply visit_value_prints; eassumption.
  - intros H. apply getattr_bind_Ok in H as (v & Hv & H).
    apply attribute_Ok in Hv. exists v. split; [assumption|].
    apply list_map_Ok in H as (l & rs & Hl & Hm & ->).
    apply iter_items in Hl as [-> _].
    apply (mapM_prints _ (fun x => if is_none x then [] else [x])) in Hm.
    + now rewrite flat_map_optional in Hm.
    + intros. eapply visit_optional_prints; eassumption.
Qed.

Lemma read_entries_prints (n : node) (es : list entry) (own : dict)
    (st st' : state) :
  mapM (read_entry visit n) es st = Ok (own, st') ->
  stdout st' = stdout st ++ printed (flat_map (entry_visits n) es).
Proof.
  revert own st. induction es as [|e es IH]; intros own st H; simpl in H.
  - apply ret_Ok in H as [-> ->]. unfold printed. simpl.
    now rewrite app_nil_r.
  - apply bind_Ok in H as (kv & st1 & He & H).
    apply bind_Ok in H as (own' & st2 & Hes & H).
    apply ret_Ok in H as [-> ->].
    unfold read_entry in He. apply bind_Ok in He as (w & st3 & Hr & He).
    apply ret_Ok in He as [-> ->].
    apply read_prints in Hr as (v & Hv & Hadd).
    simpl. rewrite printed_app. unfold entry_visits at 1. rewrite Hv.
    rewrite (IH _ _ Hes), Hadd. now rewrite app_assoc.
Qed.

Lemma visit_field_prints (fv : string * value) (st st' : state) :
  visit_field visit fv st = Ok (tt, st') ->
  stdout st' = stdout st ++ printed (field_visits fv).
Proof.
  unfold visit_field, field_visits. destruct fv.2 as [| | | | | | |l| |m].
  1-7,9: intros H; apply ret_Ok in H as [_ ->]; unfold printed; simpl;
    now rewrite app_nil_r.
  - revert st. induction l as [|x l IH]; intros st H; simpl in H.
    + apply ret_Ok in H as [_ ->]. unfold printed. simpl.
      now rewrite app_nil_r.
    + apply bind_Ok in H as ([] & st1 & Hx & H). apply IH in H. rewrite H.
      destruct x; simpl; try (apply ret_Ok in Hx as [_ ->]; reflexivity).
      apply bind_Ok in Hx as (d & st2 & Hx & Hr).
      apply ret_Ok in Hr as [_ ->].
      rewrite printed_cons, (visit_prints _ _ _ _ Hx). now rewrite app_assoc.
  - intros H. apply bind_Ok in H as (d & st1 & Hx & H).
    apply ret_Ok in H as [_ ->].
    rewrite printed_cons, (visit_prints _ _ _ _ Hx). unfold printed. simpl.
    now rewrite app_nil_r.
Qed.

Lemma NodeVisitor_generic_visit_prints (n : node) (st st' : state) :
  NodeVisitor_generic_visit visit n st = Ok (tt, st') ->
  stdout st' = stdout st ++ printed (flat_map field_visits (fields n)).
Proof.
  unfold NodeVisitor_generic_visit. generalize (fields n) as fs.
  induction fs as [|fv fs IH] in st |- *; intros H; simpl in H.
  - apply ret_Ok in H as [_ ->]. unfold printed. simpl.
    now rewrite app_nil_r.
  - apply bind_Ok in H as ([] & st1 & Hf & H). apply visit_field_prints in Hf.
    apply IH in H. simpl. rewrite printed_app, H, Hf. now rewrite app_assoc.
Qed.

End Printing.

Lemma visit_prints_diagnostics (depth : nat) (x : value) (st st' : state)
    (r : dict) :
  visit depth x st = Ok (r, st') ->
  stdout st' = stdout st ++ diagnostics (dispatched depth x).
Proof.
  revert x st st' r.
  induction depth as [|depth IH]; intros x st st' r H; [discriminate|].
  destruct (visit_Ok_node _ _ _ _ _ H) as (depth' & n & [= <-] & ->).
  assert (IH' : forall x st r st', visit depth x st = Ok (r, st') ->
            stdout st' = stdout st ++ diagnostics (dispatched depth x))
    by eauto.
  cbn [dispatched diagnostics].
  destruct (assoc (cls n) shapes) as [sh|] eqn:Hsh.
  - rewrite (proj2 (has_converter_Some _) (ex_intro _ sh Hsh)).
    destruct (visit_converted_Ok _ _ _ _ _ _ Hsh H)
      as (depth' & own & info & [= <-] & Hown & _).
    apply (read_entries_prints _ _ IH') in Hown.
    unfold children. now rewrite Hsh.
  - rewrite (proj2 (has_converter_None _) Hsh).
    destruct (visit_fallback_Ok _ _ _ _ _ Hsh H)
      as (depth' & info & [= <-] & Hg & _).
    apply (NodeVisitor_generic_visit_prints _ _ IH') in Hg. simpl in Hg.
    unfold children. rewrite Hsh, Hg. now rewrite <- app_assoc.
Qed.

Lemma In_diagnostics (ns : list node) (line : string) :
  In line (diagnostics ns) <->
  exists n, In n ns /\ has_converter (cls n) = false /\
            line = "Unimplemented Node: " +:+ str n.
Proof.
  induction ns as [|n ns IH]; simpl.
  - split; [tauto|]. intros (n & [] & _).
  - destruct (has_converter (cls n)) eqn:Hn; simpl; rewrite IH; split.
    + intros (m & Hm & Hk). exists m. tauto.
    + intros (m & [<-|Hm] & Hc & Hl); [congruence|eauto].
    + intros [<-|(m & Hm & Hk)]; [exists n; auto|]. exists m. tauto.
    + intros (m & [<-|Hm] & Hc & Hl); [now left|right; eauto].
Qed.

Lemma converted_only_quiet (ns : list node) :
  converted_only ns -> unconverted ns = ∅ /\ diagnostics ns = [].
Proof.
  induction 1 as [|n ns Hn _ [IH1 IH2]]; simpl; [auto|].
  now rewrite Hn.
Qed.

(** X4: the walk prints one diagnostic line for every node it hands to the
    fallback, in the order of the walk (a node before its children), and
    nothing else; every line is that of a node of the tree without a
    method. *)
Theorem diagnostics_in_walk_order (depth : nat) (x : value) (st st' : state)
    (r : dict) :
  visit depth x st = Ok (r, st') ->
  stdout st' = stdout st ++ diagnostics (dispatched depth x) /\
  forall line, In line (diagnostics (dispatched depth x)) ->
    exists n, In n (all_nodes x) /\ has_converter (cls n) = false /\
              line = "Unimplemented Node: " +:+ str n.
Proof.
  intros H. split; [eapply visit_prints_diagnostics; eassumption|].
  intros line Hl. apply In_diagnostics in Hl as (n & Hn & Hc & ->).
  exists n. split; [|auto]. eapply dispatched_all_nodes; eassumption.
Qed.

Lemma diagnostics_in_walk_order_witness :
  exists r st',
    visit 5 compare_tree initial = Ok (r, st') /\
    stdout st' = ["Unimplemented Node: <ast.Set object at 0x7f6be0>"].
Proof.
  eexists _, _. split; [vm_compute; reflexivity|].
  destruct (diagnostics_in_walk_order 5 compare_tree initial _ _
              ltac:(vm_compute; reflexivity)) as [Hout _].
  rewrite Hout. vm_compute. reflexivity.
Defined.

(** X5: a walk that never takes the fallback has no effect: it leaves the
    [missing] set and standard output as they were. *)
Theorem converted_walk_is_pure (depth : nat) (x : value) (st st' : state)
    (r : dict) :
  converted_only (dispatched depth x) ->
  visit depth x st = Ok (r, st') ->
  st' = st.
Proof.
  intros Hok H. apply converted_only_quiet in Hok as [Hu Hd].
  pose proof (visit_adds_unconverted _ _ _ _ _ H) as Hm.
  pose proof (visit_prints_diagnostics _ _ _ _ _ H) as Hs.
  rewrite Hu in Hm. rewrite Hd, app_nil_r in Hs.
  destruct st, st'. simpl in *. f_equal; [set_solver|assumption].
Qed.

Lemma converted_walk_is_pure_witness :
  exists r, visit 5 assign_tree initial = Ok (r, initial).
Proof.
  destruct (visit 5 assign_tree initial) as [[r st']|e] eqn:Hv;
    [|vm_compute in Hv; discriminate Hv].
  exists r. f_equal. f_equal.
  apply (converted_walk_is_pure 5 assign_tree initial st' r); [|exact Hv].
  apply (bool_decide_unpack _). vm_compute. reflexivity.
Defined.

(** ** A deeper call stack *)

Section Deeper.

(** [shallow] and [deep] are [self.visit] with two bounds on the call
    stack: whatever [shallow] returns, [deep] returns too. *)
Variables shallow deep : visitor.

Hypothesis deep_returns : forall x st r st',
  shallow x st = Ok (r, st') -> deep x st = Ok (r, st').

Lemma visit_value_deeper (x r : value) (st st' : state) :
  visit_value shallow x st = Ok (r, st') ->
  visit_value deep x st = Ok (r, st').
Proof.
  unfold visit_value. intros H.
  apply bind_Ok in H as (d & st1 & Hd & H).
  apply bind_Ok. exists d, st1. auto.
Qed.

Lemma visit_optional_deeper (x r : value) (st st' : state) :
  visit_optional shallow x st = Ok (r, st') ->
  visit_optional deep x st = Ok (r, st').
Proof.
  unfold visit_optional. destruct (is_none x); [auto|].
  apply visit_value_deeper.
Qed.

Lemma mapM_deeper {A B : Type} (f g : A -> M B) (xs : list A) (rs : list B)
    (st st' : state) :
  (forall x st r st', f x st = Ok (r, st') -> g x st = Ok (r, st')) ->
  mapM f xs st = Ok (rs, st') -> mapM g xs st = Ok (rs, st').
Proof.
  intros Hfg. revert rs st.
  induction xs as [|x xs IH]; intros rs st H; simpl in *; [assumption|].
  apply bind_Ok in H as (y & st1 & Hy & H).
  apply bind_Ok in H as (ys & st2 & Hys & H). apply ret_Ok in H as [-> ->].
  apply bind_Ok. exists y, st1. split; [auto|].
  apply bind_Ok. exists ys, st2. split; [|reflexivity].
  eapply IH; eassumption.
Qed.

Lemma forM_deeper {A : Type} (f g : A -> M unit) (xs : list A)
    (st st' : state) :
  (forall x st st', f x st = Ok (tt, st') -> g x st = Ok (tt, st')) ->
  forM_ xs f st = Ok (tt, st') -> forM_ xs g st = Ok (tt, st').
Proof.
  intros Hfg. revert st.
  induction xs as [|x xs IH]; intros st H; simpl in *; [assumption|].
  apply bind_Ok in H as ([] & st1 & Hy & H).
  apply bind_Ok. exists tt, st1. split; [auto|].
  eapply IH; eassumption.
Qed.

Lemma list_map_deeper (f g : value -> M value) (xs r : value)
    (st st' : state) :
  (forall x st r st', f x st = Ok (r, st') -> g x st = Ok (r, st')) ->
  list_map f xs st = Ok (r, st') -> list_map g xs st = Ok (r, st').
Proof.
  intros Hfg H. apply list_map_Ok in H as (l & rs & Hl & Hm & ->).
  apply list_map_Ok. exists l, rs. split; [assumption|].
  split; [|reflexivity]. eapply mapM_deeper; eassumption.
Qed.

Lemma read_deeper (n : node) (a : access) (f : string) (r : value)
    (st st' : state) :
  read shallow n a f st = Ok (r, st') -> read deep n a f st = Ok (r, st').
Proof.
  destruct a; simpl; [auto|..]; intros H;
    apply getattr_bind_Ok in H as (v & Hv & H);
    apply getattr_bind_Ok; exists v; (split; [assumption|]).
  - now apply visit_value_deeper.
  - now apply visit_optional_deeper.
  - revert H. apply list_map_deeper.
    intros x st0 r0 st1. apply visit_value_deeper.
  - revert H. apply list_map_deeper.
    intros x st0 r0 st1. apply visit_optional_deeper.
Qed.

Lemma read_entries_deeper (n : node) (es : list entry) (own : dict)
    (st st' : state) :
  mapM (read_entry shallow n) es st = Ok (own, st') ->
  mapM (read_entry deep n) es st = Ok (own, st').
Proof.
  apply mapM_deeper. intros e st0 kv st1 H. unfold read_entry in *.
  apply bind_Ok in H as (v & st2 & Hv & H).
  apply bind_Ok. exists v, st2. split; [|assumption].
  now apply read_deeper.
Qed.

Lemma NodeVisitor_generic_visit_deeper (n : node) (st st' : state) :
  NodeVisitor_generic_visit shallow n st = Ok (tt, st') ->
  NodeVisitor_generic_visit deep n st = Ok (tt, st').
Proof.
  unfold NodeVisitor_generic_visit. apply forM_deeper.
  intros [f v] st0 st1. unfold visit_field. simpl.
  destruct v; try tauto.
  - apply forM_deeper. intros x st2 st3. destruct x; try tauto.
    intros H. apply bind_Ok in H as (d & st4 & Hd & H).
    apply bind_Ok. exists d, st4. auto.
  - intros H. apply bind_Ok in H as (d & st4 & Hd & H).
    apply bind_Ok. exists d, st4. auto.
Qed.

End Deeper.

Lemma visit_S (depth : nat) (x : value) (st st' : state) (r : dict) :
  visit depth x st = Ok (r, st') -> visit (S depth) x st = Ok (r, st').
Proof.
  revert x st st' r.
  induction depth as [|depth IH]; intros x st st' r H; [discriminate|].
  destruct (visit_Ok_node _ _ _ _ _ H) as (depth' & n & [= <-] & ->).
  assert (IH' : forall x st r st', visit depth x st = Ok (r, st') ->
                  visit (S depth) x st = Ok (r, st')) by eauto.
  rewrite visit_node in H |- *.
  destruct (assoc (cls n) shapes) as [sh|].
  - apply run_shape_Ok in H as (own & info & Hown & Hinfo & ->).
    apply run_shape_Ok. exists own, info. split; [|auto].
    eapply read_entries_deeper; eassumption.
  - apply generic_visit_fallback_Ok in H as (info & Hg & Hinfo & ->).
    apply generic_visit_fallback_Ok. exists info. split; [|auto].
    eapply NodeVisitor_generic_visit_deeper; eassumption.
Qed.

(** X2: the bound on the call stack does not show in the result: what the
    walk returns under one bound it returns under every larger one, with
    the same final state. *)
Theorem visit_deeper (depth depth' : nat) (x : value) (st st' : state)
    (r : dict) :
  depth <= depth' ->
  visit depth x st = Ok (r, st') ->
  visit depth' x st = Ok (r, st').
Proof.
  induction 1 as [|depth' _ IH]; [tauto|].
  intros H. apply visit_S. auto.
Qed.

Lemma visit_deeper_witness :
  visit 1000 assign_tree initial = visit 5 assign_tree initial.
Proof.
  destruct (visit 5 assign_tree initial) as [[r st']|e] eqn:Hv;
    [|vm_compute in Hv; discriminate Hv].
  apply (visit_deeper 5 1000 assign_tree initial st' r); [|exact Hv].
  apply Nat.leb_le. vm_compute. reflexivity.
Defined.

(** Once [self.visit] may nest as deep as the [ast] objects of the tree
    do, the walk dispatches on all the nodes it ever will: [walked] does
    not depend on the bound. *)
Lemma dispatched_height (depth depth' : nat) (x : value) :
  height x <= depth -> height x <= depth' ->
  dispatched depth x = dispatched depth' x.
Proof.
  revert depth' x. induction depth as [|depth IH]; intros depth' x H H'.
  - destruct x as [| | | | | | | | |[c i f a]]; destruct depth';
      try reflexivity; simpl in H; lia.
  - destruct x as [| | | | | | | | |n]; destruct depth'; try reflexivity.
    { destruct n. simpl in H'. lia. }
    cbn [dispatched]. f_equal.
    assert (Hch : Forall (fun c => height c <= depth /\ height c <= depth')
                         (children n)).
    { apply Forall_forall. intros c Hc.
      apply list_elem_of_In, height_children in Hc. lia. }
    induction Hch as [|c cs [Hc Hc'] _ IHcs]; [reflexivity|].
    simpl. now rewrite IHcs, (IH depth' c Hc Hc').
Qed.

(** X1: on a tree where every node of the walk is ready for its method
    (the attributes the method reads are there and fit, and the location
    is there where it is read), the walk returns a record whenever the
    call stack is deep enough: there is a bound from which on it returns,
    always the same record with the same final state. *)
Theorem visit_returns (x : value) (st : state) :
  is_ast x = true ->
  Forall (fun n => ready n = true) (walked x) ->
  exists bound r st',
    forall depth, bound <= depth -> visit depth x st = Ok (r, st').
Proof.
  intros Hx Hr.
  destruct (visit_returns_within (height x) x st Hx (le_n _) Hr)
    as (r & st' & H).
  exists (height x), r, st'.
  induction 1 as [|depth _ IH]; [assumption|]. now apply visit_S.
Qed.

Lemma visit_returns_witness :
  exists bound r st',
    forall depth, bound <= depth ->
      visit depth assign_tree initial = Ok (r, st').
Proof.
  apply (visit_returns assign_tree initial).
  - reflexivity.
  - apply (bool_decide_unpack _). vm_compute. reflexivity.
Defined.

(** ** The record of a converted node, key by key *)

Lemma shapes_keys_NoDup (kind : string) (sh : shape) :
  assoc kind shapes = Some sh ->
  NoDup (map (fun e : entry => e.1.1) (entries sh)).
Proof.
  intros Hsh. apply assoc_In in Hsh.
  assert (Hall : Forall (fun ks : string * shape =>
            NoDup (map (fun e : entry => e.1.1) (entries ks.2))) shapes).
  { apply (bool_decide_unpack _). vm_compute. reflexivity. }
  rewrite Forall_forall in Hall.
  now apply list_elem_of_In, Hall in Hsh.
Qed.

Lemma assoc_NoDup (d : dict) (k : string) (v : value) :
  NoDup (keys d) -> In (k, v) d -> assoc k d = Some v.
Proof.
  induction d as [|[k' v'] d IH]; simpl; [tauto|].
  intros Hnd. apply NoDup_cons in Hnd as [Hk Hnd].
  intros [[= -> ->]|Hin].
  - now rewrite String.eqb_refl.
  - destruct (String.eqb_spec k k') as [->|_]; [|auto].
    destruct Hk. apply list_elem_of_In. unfold keys.
    change k' with (fst (k', v)). now apply in_map.
Qed.

Lemma read_entries_In (visit : visitor) (n : node) (es : list entry)
    (own : dict) (st st' : state) (key : string) (a : access) (f : string) :
  mapM (read_entry visit n) es st = Ok (own, st') ->
  In (key, a, f) es ->
  exists v st1 st2,
    read visit n a f st1 = Ok (v, st2) /\ In (key, v) own.
Proof.
  revert own st. induction es as [|e es IH]; intros own st H; [intros []|].
  simpl in H. apply bind_Ok in H as (kv & st1 & He & H).
  apply bind_Ok in H as (own' & st2 & Hes & H). apply ret_Ok in H as [-> ->].
  intros [->|Hin].
  - unfold read_entry in He. simpl in He.
    apply bind_Ok in He as (v & st3 & Hv & He). apply ret_Ok in He as [-> ->].
    exists v, st, st3. split; [assumption|now left].
  - destruct (IH _ _ Hes Hin) as (v & sa & sb & Hv & Hown).
    exists v, sa, sb. split; [assumption|now right].
Qed.

Lemma converted_record_app (depth : nat) (n : node) (sh : shape)
    (st st' : state) (r : dict) :
  assoc (cls n) shapes = Some sh ->
  visit depth (VAst n) st = Ok (r, st') ->
  exists depth' own info,
    depth = S depth' /\
    mapM (read_entry (visit depth') n) (entries sh) st = Ok (own, st') /\
    keys own = own_keys (cls n) /\
    (if merges sh then position_extractor n = Ok info else info = []) /\
    r = ("type", VStr (cls n)) :: own ++ info.
Proof.
  intros Hsh H.
  destruct (visit_converted_Ok _ _ _ _ _ _ Hsh H)
    as (depth' & own & info & -> & Hown & Hinfo & Hkeys & ->).
  exists depth', own, info. repeat split; try assumption.
  destruct (merges sh).
  - change (("type", VStr (cls n)) :: own ++ info)
      with ((("type", VStr (cls n)) :: own) ++ info).
    apply (dict_or_position _ _ n Hinfo). intros k Hk.
    apply assoc_None. change (keys (("type", VStr (cls n)) :: own))
      with ("type" :: keys own). rewrite Hkeys.
    intros Hin. now apply own_keys_fresh in Hin.
  - subst info. unfold dict_or. simpl. now rewrite app_nil_r.
Qed.

Lemma converted_entry (depth : nat) (n : node) (st st' : state) (r : dict)
    (key : string) (a : access) (f : string) :
  reads (cls n) key a f ->
  visit depth (VAst n) st = Ok (r, st') ->
  exists depth' v st1 st2,
    depth = S depth' /\
    read (visit depth') n a f st1 = Ok (v, st2) /\ assoc key r = Some v.
Proof.
  intros (sh & Hsh & Hin) H.
  destruct (converted_record_app _ _ _ _ _ _ Hsh H)
    as (depth' & own & info & -> & Hown & Hkeys & _ & ->).
  destruct (read_entries_In _ _ _ _ _ _ _ _ _ Hown Hin)
    as (v & st1 & st2 & Hv & Hkv).
  exists depth', v, st1, st2. split; [reflexivity|]. split; [assumption|].
  assert (Hfresh : ~ In key ("type" :: position_keys))
    by (apply (shapes_keys_fresh _ _ (key, a, f) Hsh Hin)).
  cbn [assoc]. destruct (String.eqb_spec key "type") as [->|_].
  - destruct Hfresh. now left.
  - rewrite assoc_app, (assoc_NoDup own key v); [reflexivity| |assumption].
    rewrite Hkeys. unfold own_keys. rewrite Hsh.
    eapply shapes_keys_NoDup; eassumption.
Qed.

(** X6: a key that a method fills with [node.f] holds that attribute of the
    node, unchanged. *)
Theorem raw_attribute_verbatim (depth : nat) (n : node) (st st' : state)
    (r : dict) (key f : string) :
  reads (cls n) key Raw f ->
  visit depth (VAst n) st = Ok (r, st') ->
  exists v, attribute n f = Ok v /\ assoc key r = Some v.
Proof.
  intros Hreads H.
  destruct (converted_entry _ _ _ _ _ _ _ _ Hreads H)
    as (depth' & v & st1 & st2 & _ & Hv & Hr).
  simpl in Hv. apply getattr_Ok in Hv as [Hv _].
  exists v. now rewrite attribute_Ok.
Qed.

Lemma raw_attribute_verbatim_witness :
  exists r st',
    visit 2 (VAst (ast_Name 0x7f4b50 "x" ast_Store (located 1 0 1 1))) initial
      = Ok (r, st') /\
    assoc "id" r = Some (VStr "x").
Proof.
  eexists _, _. split; [vm_compute; reflexivity|].
  destruct (raw_attribute_verbatim 2
              (ast_Name 0x7f4b50 "x" ast_Store (located 1 0 1 1)) initial _ _
              "id" "id"
              ltac:(eexists; split; [reflexivity|left; reflexivity])
              ltac:(vm_compute; reflexivity)) as (v & Hv & Hr).
  injection Hv as <-. exact Hr.
Defined.

(** X7: a key that a method fills with [self.visit(node.f)] holds the
    record the walk returns for that child. *)
Theorem child_record (depth : nat) (n : node) (st st' : state)
    (r : dict) (key f : string) :
  reads (cls n) key One f ->
  visit (S depth) (VAst n) st = Ok (r, st') ->
  exists child d st1 st2,
    attribute n f = Ok child /\
    visit depth child st1 = Ok (d, st2) /\
    assoc key r = Some (VDict d).
Proof.
  intros Hreads H.
  destruct (converted_entry _ _ _ _ _ _ _ _ Hreads H)
    as (depth' & v & st1 & st2 & [= <-] & Hv & Hr).
  simpl in Hv. apply getattr_bind_Ok in Hv as (child & Hc & Hv).
  unfold visit_value in Hv. apply bind_Ok in Hv as (d & st3 & Hd & Hv).
  apply ret_Ok in Hv as [-> ->].
  now exists child, d, st1, st3.
Qed.

Lemma child_record_witness :
  exists r st',
    visit 3 (VAst assign_node) initial = Ok (r, st') /\
    exists d, assoc "value" r = Some (VDict d) /\
              assoc "type" d = Some (VStr "Constant").
Proof.
  eexists _, _. split; [vm_compute; reflexivity|].
  destruct (child_record 2 assign_node initial _ _ "value" "value"
              ltac:(eexists; split; [reflexivity|right; left; reflexivity])
              ltac:(vm_compute; reflexivity))
    as (child & d & st1 & st2 & Hc & Hd & Hr).
  exists d. split; [exact Hr|].
  injection Hc as <-. revert Hd. clear.
  rewrite (visit_method "Constant" visit_Constant) by reflexivity.
  unfold visit_Constant. intros Hd.
  apply bind_Ok in Hd as (v & sa & _ & Hd).
  apply bind_Ok in Hd as (k & sb & _ & Hd).
  apply bind_Ok in Hd as (info & sc & Hinfo & Hd).
  apply ret_Ok in Hd as [-> ->].
  apply generic_visit_info_Ok in Hinfo as [Hinfo _].
  injection Hinfo as <-. reflexivity.
Defined.

(** X8: a key that a method fills with
    [self.visit(node.f) if node.f is not None else None] is always there:
    it holds [None] when the attribute is [None], and the record of the
    child otherwise. *)
Theorem optional_child (depth : nat) (n : node) (st st' : state)
    (r : dict) (key f : string) :
  reads (cls n) key Opt f ->
  visit (S depth) (VAst n) st = Ok (r, st') ->
  exists child,
    attribute n f = Ok child /\
    match child with
    | VNone => assoc key r = Some VNone
    | _ => exists d st1 st2,
             visit depth child st1 = Ok (d, st2) /\
             assoc key r = Some (VDict d)
    end.
Proof.
  intros Hreads H.
  destruct (converted_entry _ _ _ _ _ _ _ _ Hreads H)
    as (depth' & v & st1 & st2 & [= <-] & Hv & Hr).
  simpl in Hv. apply getattr_bind_Ok in Hv as (child & Hc & Hv).
  apply visit_optional_Ok in Hv.
  exists child. split; [assumption|].
  destruct child;
    try (destruct Hv as (record & Hd & ->); now exists record, st1, st2).
  destruct Hv as [-> _]. exact Hr.
Qed.

Lemma optional_child_witness :
  exists r st',
    visit 2 (VAst return_node) initial = Ok (r, st') /\
    assoc "value" r = Some VNone.
Proof.
  eexists _, _. split; [vm_compute; reflexivity|].
  destruct (optional_child 1 return_node initial _ _ "value" "value"
              ltac:(eexists; split; [reflexivity|left; reflexivity])
              ltac:(vm_compute; reflexivity)) as (child & Hc & Hr).
  injection Hc as <-. exact Hr.
Defined.



Lemma mapM_optional_lookup (visit : visitor) (xs rs : list value)
    (st st' : state) :
  mapM (visit_optional visit) xs st = Ok (rs, st') ->
  length rs = length xs /\
  forall (i : nat) (x : value), xs !! i = Some x ->
    match x with
    | VNone => rs !! i = Some VNone
    | _ => exists d st1 st2,
             visit x st1 = Ok (d, st2) /\ rs !! i = Some (VDict d)
    end.
Proof.
  revert rs st. induction xs as [|x xs IH]; intros rs st H; simpl in H.
  - apply ret_Ok in H as [-> ->]. split; [reflexivity|]. intros i y [=].
  - apply bind_Ok in H as (y & st1 & Hy & H).
    apply bind_Ok in H as (ys & st2 & Hys & H). apply ret_Ok in H as [-> ->].
    destruct (IH _ _ Hys) as [Hlen Hi]. split; [simpl; congruence|].
    intros [|i] z; simpl; [|apply Hi].
    intros [= <-]. apply visit_optional_Ok in Hy.
    destruct x;
      try (destruct Hy as (record & Hd & ->); now exists record, st, st1).
    now destruct Hy as [-> _].
Qed.

(** X10: a key that a method fills with
    [[self.visit(x) if x is not None else None for x in node.f]] holds a
    list as long as the node's, with [None] wherever the node has [None]
    and the record of the item elsewhere. *)
Theorem optional_sequence (depth : nat) (n : node) (st st' : state)
    (r : dict) (key f : string) :
  reads (cls n) key SeqOpt f ->
  visit (S depth) (VAst n) st = Ok (r, st') ->
  exists v rs,
    attribute n f = Ok v /\
    assoc key r = Some (VList rs) /\
    length rs = length (items v) /\
    forall (i : nat) (x : value), items v !! i = Some x ->
      match x with
      | VNone => rs !! i = Some VNone
      | _ => exists d st1 st2,
               visit depth x st1 = Ok (d, st2) /\ rs !! i = Some (VDict d)
      end.
Proof.
  intros Hreads H.
  destruct (converted_entry _ _ _ _ _ _ _ _ Hreads H)
    as (depth' & w & st1 & st2 & [= <-] & Hw & Hr).
  simpl in Hw. apply getattr_bind_Ok in Hw as (v & Hv & Hw).
  apply list_map_Ok in Hw as (l & rs & Hl & Hm & ->).
  apply iter_items in Hl as [<- _].
  apply mapM_optional_lookup in Hm as [Hlen Hi].
  now exists v, rs.
Qed.

Lemma optional_sequence_witness :
  exists r st' rs,
    visit 3 (VAst dict_node) initial = Ok (r, st') /\
    assoc "keys" r = Some (VList rs) /\ rs !! 0 = Some VNone.
Proof.
  destruct (optional_sequence 2 dict_node initial _ _ "keys" "keys"
              ltac:(eexists; split; [reflexivity|left; reflexivity])
              ltac:(vm_compute; reflexivity))
    as (v & rs & Hv & Hr & Hlen & Hi).
  injection Hv as <-.
  eexists _, _, rs. split; [vm_compute; reflexivity|].
  split; [exact Hr|]. exact (Hi 0 VNone eq_refl).
Defined.

Lemma keys_app (a b : dict) : keys (a ++ b) = keys a ++ keys b.
Proof. unfold keys. apply map_app. Qed.

(** X11: the keys of a record and their order depend on the kind of the
    node alone: ["type"], the keys of the method in the order it writes
    them, then the five positional keys when the method merges them in;
    for a node without a method, the five positional keys and then
    ["type"]. *)
Theorem record_keys (depth : nat) (n : node) (st st' : state) (r : dict) :
  visit depth (VAst n) st = Ok (r, st') ->
  keys r = record_keys_of (cls n).
Proof.
  intros H. unfold record_keys_of.
  destruct (assoc (cls n) shapes) as [sh|] eqn:Hsh.
  - rewrite (proj2 (has_converter_Some _) (ex_intro _ sh Hsh)).
    destruct (converted_record_app _ _ _ _ _ _ Hsh H)
      as (depth' & own & info & _ & _ & Hkeys & Hinfo & ->).
    change (keys (("type", VStr (cls n)) :: own ++ info))
      with ("type" :: keys (own ++ info)).
    rewrite keys_app, Hkeys, (merged_info_keys _ _ _ Hinfo).
    rewrite (bare_kinds_merges _ _ Hsh).
    now repeat case_bool_decide.
  - rewrite (proj2 (has_converter_None _) Hsh).
    destruct (visit_fallback_Ok _ _ _ _ _ Hsh H)
      as (depth' & info & _ & _ & Hinfo & ->).
    now rewrite keys_app, (position_extractor_keys _ _ Hinfo).
Qed.

Lemma record_keys_witness :
  exists r st',
    visit 3 (VAst assign_node) initial = Ok (r, st') /\
    keys r = ["type"; "targets"; "value"; "lineno"; "col_offset";
              "end_lineno"; "end_col_offset"; "type_comment"].
Proof.
  eexists _, _. split; [vm_compute; reflexivity|].
  exact (record_keys 3 assign_node initial _ _
           ltac:(vm_compute; reflexivity)).
Defined.

Lemma position_extractor_Ok (n : node) (info : dict) :
  position_extractor n = Ok info ->
  exists lineno col_offset end_lineno end_col_offset,
    attribute n "lineno" = Ok lineno /\
    attribute n "col_offset" = Ok col_offset /\
    attribute n "end_lineno" = Ok end_lineno /\
    attribute n "end_col_offset" = Ok end_col_offset /\
    info = [("lineno", lineno);
            ("col_offset", col_offset);
            ("end_lineno", end_lineno);
            ("end_col_offset", end_col_offset);
            ("type_comment",
             default VNone (assoc "type_comment" (fields n ++ attrs n)))].
Proof.
  unfold position_extractor.
  destruct (attribute n "lineno") as [l|]; [|discriminate].
  destruct (attribute n "col_offset") as [c|]; [|discriminate].
  destruct (attribute n "end_lineno") as [el|]; [|discriminate].
  destruct (attribute n "end_col_offset") as [ec|]; [|discriminate].
  intros [= <-]. now exists l, c, el, ec.
Qed.

Lemma record_position_part (depth : nat) (n : node) (st st' : state)
    (r : dict) :
  cls n ∉ bare_kinds ->
  visit depth (VAst n) st = Ok (r, st') ->
  exists info,
    position_extractor n = Ok info /\
    forall k, In k position_keys -> assoc k r = assoc k info.
Proof.
  intros Hbare H.
  destruct (assoc (cls n) shapes) as [sh|] eqn:Hsh.
  - destruct (converted_record_app _ _ _ _ _ _ Hsh H)
      as (depth' & own & info & _ & _ & Hkeys & Hinfo & ->).
    rewrite (bare_kinds_merges _ _ Hsh), bool_decide_eq_true_2 in Hinfo
      by assumption.
    exists info. split; [assumption|]. intros k Hk.
    change (("type", VStr (cls n)) :: own ++ info)
      with ((("type", VStr (cls n)) :: own) ++ info).
    rewrite assoc_app.
    assert (Hnone : assoc k (("type", VStr (cls n)) :: own) = None).
    { apply assoc_None. change (keys (("type", VStr (cls n)) :: own))
        with ("type" :: keys own). rewrite Hkeys.
      intros Hin. now apply own_keys_fresh in Hin. }
    now rewrite Hnone.
  - destruct (visit_fallback_Ok _ _ _ _ _ Hsh H)
      as (depth' & info & _ & _ & Hinfo & ->).
    exists info. split; [assumption|]. intros k Hk. rewrite assoc_app.
    destruct (assoc k info) as [v|] eqn:E; [reflexivity|].
    apply assoc_None in E.
    now rewrite (position_extractor_keys _ _ Hinfo) in E.
Qed.

(** X12: where a record has the positional keys, they hold the node's own
    [lineno], [col_offset], [end_lineno] and [end_col_offset], and under
    ["type_comment"] the node's [type_comment], or [None] when the node has
    no such attribute. *)
Theorem record_position (depth : nat) (n : node) (st st' : state)
    (r : dict) :
  cls n ∉ bare_kinds ->
  visit depth (VAst n) st = Ok (r, st') ->
  (forall k, In k ["lineno"; "col_offset"; "end_lineno"; "end_col_offset"] ->
     exists v, attribute n k = Ok v /\ assoc k r = Some v) /\
  assoc "type_comment" r =
    Some (default VNone (assoc "type_comment" (fields n ++ attrs n))).
Proof.
  intros Hbare H.
  destruct (record_position_part _ _ _ _ _ Hbare H) as (info & Hinfo & Hr).
  apply position_extractor_Ok in Hinfo
    as (l & c & el & ec & Hl & Hc & Hel & Hec & ->).
  split.
  - intros k Hk. rewrite Hr by (simpl in *; tauto).
    simpl in Hk.
    destruct Hk as [<-|[<-|[<-|[<-|[]]]]]; eexists; split;
      try eassumption; reflexivity.
  - rewrite Hr by (simpl; tauto). reflexivity.
Qed.

Lemma record_position_witness :
  exists r st',
    visit 3 (VAst assign_node) initial = Ok (r, st') /\
    assoc "end_col_offset" r = Some (VInt 5) /\
    assoc "type_comment" r = Some VNone.
Proof.
  eexists _, _. split; [vm_compute; reflexivity|].
  destruct (record_position 3 assign_node initial _ _
              ltac:(apply (bool_decide_unpack _); vm_compute; reflexivity)
              ltac:(vm_compute; reflexivity)) as [Hpos Htc].
  split; [|exact Htc].
  destruct (Hpos "end_col_offset") as (v & Hv & Hr).
  - do 3 right. left. reflexivity.
  - injection Hv as <-. exact Hr.
Defined.

(** ** Standard output of the program *)

Lemma length_app_string (s t : string) :
  String.length (s +:+ t) = String.length s + String.length t.
Proof.
  induction s as [|c s IH]; [reflexivity|].
  change (S (String.length (s +:+ t)) =
          S (String.length s + String.length t)).
  now rewrite IH.
Qed.

Lemma app_string_nil_r (s : string) : s +:+ "" = s.
Proof.
  induction s as [|c s IH]; [reflexivity|].
  change (String c (s +:+ "") = String c s). now rewrite IH.
Qed.

Lemma unlines_length (ls : list string) :
  String.length (unlines ls) = 0 -> ls = [].
Proof.
  destruct ls as [|l ls]; [reflexivity|]. simpl.
  rewrite !length_app_string. simpl. lia.
Qed.

Lemma diagnostics_nil (ns : list node) :
  diagnostics ns = [] <-> converted_only ns.
Proof.
  split.
  - induction ns as [|n ns IH]; simpl; [constructor|].
    destruct (has_converter (cls n)) eqn:Hn; [|discriminate].
    intros H. constructor; [assumption|]. now apply IH.
  - intros H. now apply converted_only_quiet in H.
Qed.

Lemma main_Ok (json_text : dict -> result string) (limit : nat)
    (tree : value) (out : string) :
  main json_text limit tree = Ok out ->
  exists r st text,
    visit limit tree initial = Ok (r, st) /\
    json_text r = Ok text /\
    stdout st = diagnostics (dispatched limit tree) /\
    missing st = unconverted (dispatched limit tree) /\
    out = unlines (stdout st) +:+ text +:+ unlines (report st).
Proof.
  unfold main.
  destruct (visit limit tree initial) as [[r st]|e] eqn:Hv; [|discriminate].
  destruct (json_text r) as [text|e] eqn:Ht; [|discriminate].
  intros [= <-]. exists r, st, text.
  pose proof (visit_prints_diagnostics _ _ _ _ _ Hv) as Hs.
  pose proof (visit_adds_unconverted _ _ _ _ _ Hv) as Hm.
  simpl in Hs, Hm. repeat split; try assumption. set_solver.
Qed.

(** X13: when the program ends without an exception, standard output
    holds, in this order: one diagnostic line for each node handed to the
    fallback, in the order of the walk; the JSON text, with no newline
    after it; one line for each kind without a method that the walk met,
    each kind once. *)
Theorem main_output (json_text : dict -> result string) (limit : nat)
    (tree : value) (out : string) :
  main json_text limit tree = Ok out ->
  exists r st text kinds,
    visit limit tree initial = Ok (r, st) /\
    json_text r = Ok text /\
    out = unlines (diagnostics (dispatched limit tree)) +:+ text
          +:+ unlines kinds /\
    NoDup kinds /\
    forall kind, kind ∈ kinds <-> kind ∈ unconverted (dispatched limit tree).
Proof.
  intros H. apply main_Ok in H as (r & st & text & Hv & Ht & Hs & Hm & ->).
  exists r, st, text, (report st). rewrite Hs. unfold report.
  repeat split; try assumption; try apply NoDup_elements.
  - rewrite elem_of_elements, Hm. tauto.
  - rewrite elem_of_elements, Hm. tauto.
Qed.

Lemma main_output_witness :
  exists out text kinds,
    main (fun _ => Ok "{}") 5 compare_tree = Ok out /\
    out = unlines ["Unimplemented Node: <ast.Set object at 0x7f6be0>"]
          +:+ text +:+ unlines kinds /\
    text = "{}".
Proof.
  destruct (main_output (fun _ => Ok "{}") 5 compare_tree _
              ltac:(vm_compute; reflexivity))
    as (r & st & text & kinds & Hv & Ht & Hout & _ & _).
  injection Ht as <-.
  eexists _, "{}", kinds. split; [vm_compute; reflexivity|].
  split; [exact Hout|reflexivity].
Defined.

(** X14: when the program ends without an exception, standard output is
    the JSON text and nothing else exactly when no node of the walk was
    handed to the fallback. *)
Theorem main_prints_json_only (json_text : dict -> result string)
    (limit : nat) (tree : value) (out : string) :
  main json_text limit tree = Ok out ->
  exists r st text,
    visit limit tree initial = Ok (r, st) /\
    json_text r = Ok text /\
    (out = text <-> converted_only (dispatched limit tree)).
Proof.
  intros H. apply main_Ok in H as (r & st & text & Hv & Ht & Hs & Hm & ->).
  exists r, st, text. split; [assumption|]. split; [assumption|].
  unfold report. rewrite Hs, Hm. split.
  - intros E. apply (f_equal String.length) in E.
    rewrite !length_app_string in E.
    apply diagnostics_nil, unlines_length. lia.
  - intros Hok. apply converted_only_quiet in Hok as [-> ->].
    rewrite elements_empty. simpl. apply app_string_nil_r.
Qed.

Lemma main_prints_json_only_witness :
  main (fun _ => Ok "{}") 5 assign_tree = Ok "{}".
Proof.
  destruct (main_prints_json_only (fun _ => Ok "{}") 5 assign_tree _
              ltac:(vm_compute; reflexivity))
    as (r & st & text & _ & Ht & Hiff).
  injection Ht as <-. vm_compute. reflexivity.
Defined.

(** ** The exceptions of the walk *)

Lemma bind_Raise {A B : Type} (m : M A) (f : A -> M B) (st : state) (e : exn) :
  bind m f st = Raise e <->
  m st = Raise e \/ exists a st1, m st = Ok (a, st1) /\ f a st1 = Raise e.
Proof.
  unfold bind. destruct (m st) as [[a st1]|e0]; split.
  - intros H. right. now exists a, st1.
  - intros [[=]|(a' & st' & [= <- <-] & H)]. exact H.
  - intros [= ->]. now left.
  - intros [[= ->]|(a' & st' & [=] & _)]. reflexivity.
Qed.

Lemma read_entries_Raise (visit : visitor) (n : node) (es : list entry)
    (acc : dict) (k : dict -> M dict) (st : state) (e : exn) :
  read_entries visit n es acc k st = Raise e ->
  mapM (read_entry visit n) es st = Raise e \/
  exists own st1,
    mapM (read_entry visit n) es st = Ok (own, st1) /\
    k (acc ++ own) st1 = Raise e.
Proof.
  revert acc st. induction es as [|[[key a] f] es IH]; intros acc st H.
  - right. exists [], st. split; [reflexivity|]. now rewrite app_nil_r.
  - simpl in H. apply bind_Raise in H as [H|(v & st1 & Hv & H)].
    + left. simpl. apply bind_Raise. left. unfold read_entry. simpl.
      apply bind_Raise. now left.
    + assert (He : read_entry visit n (key, a, f) st = Ok ((key, v), st1)).
      { unfold read_entry. simpl. apply bind_Ok. now exists v, st1. }
      apply IH in H as [H|(own & st2 & Hown & H)].
      * left. simpl. apply bind_Raise. right. exists (key, v), st1.
        split; [assumption|]. apply bind_Raise. now left.
      * right. exists ((key, v) :: own), st2. split.
        { simpl. apply bind_Ok. exists (key, v), st1. split; [assumption|].
          apply bind_Ok. now exists own, st2. }
        now rewrite <- app_assoc in H.
Qed.

Lemma run_shape_Raise (kind : string) (sh : shape) (visit : visitor)
    (n : node) (st : state) (e : exn) :
  run_shape kind sh visit n st = Raise e ->
  mapM (read_entry visit n) (entries sh) st = Raise e \/
  (merges sh = true /\ position_extractor n = Raise e).
Proof.
  unfold run_shape. intros H.
  apply read_entries_Raise in H as [H|(own & st1 & _ & H)]; [now left|right].
  destruct (merges sh); [|discriminate]. split; [reflexivity|].
  apply bind_Raise in H as [H|(info & st2 & _ & [=])].
  rewrite generic_visit_info in H.
  destruct (position_extractor n); [discriminate|]. now injection H as ->.
Qed.

Lemma generic_visit_fallback_Raise (visit : visitor) (n : node) (st : state)
    (e : exn) :
  generic_visit visit n false st = Raise e ->
  (exists st0, NodeVisitor_generic_visit visit n st0 = Raise e) \/
  position_extractor n = Raise e.
Proof.
  rewrite generic_visit_eq. simpl negb. cbv iota.
  unfold bind at 1 2, missing_add, print. simpl. unfold bind, ret.
  destruct (NodeVisitor_generic_visit visit n _) as [[[] st1]|e0] eqn:Hg.
  - destruct (position_extractor n); [discriminate|].
    intros [= ->]. now right.
  - intros [= ->]. left. eauto.
Qed.

Section Fails.

(** One level of the walk: on the values that are [good], [visit] raises
    nothing but [RecursionError]. *)
Variable visit : visitor.
Variable good : value -> Prop.

Hypothesis visit_fails : forall x st e,
  good x -> visit x st = Raise e -> e = RecursionError.

Lemma visit_value_fails (x : value) (st : state) (e : exn) :
  good x -> visit_value visit x st = Raise e -> e = RecursionError.
Proof.
  intros Hx H. apply bind_Raise in H as [H|(d & st1 & _ & [=])]. eauto.
Qed.

Lemma visit_optional_fails (x : value) (st : state) (e : exn) :
  (is_none x = false -> good x) ->
  visit_optional visit x st = Raise e -> e = RecursionError.
Proof.
  unfold visit_optional. destruct (is_none x); [discriminate|].
  intros Hx. apply visit_value_fails. auto.
Qed.

Lemma mapM_fails {A B : Type} (f : A -> M B) (fine : A -> Prop)
    (xs : list A) (st : state) (e : exn) :
  (forall x st e, fine x -> f x st = Raise e -> e = RecursionError) ->
  Forall fine xs ->
  mapM f xs st = Raise e -> e = RecursionError.
Proof.
  intros Hf Hxs. revert st.
  induction Hxs as [|x xs Hx _ IH]; intros st H; [discriminate|].
  simpl in H. apply bind_Raise in H as [H|(y & st1 & _ & H)]; [eauto|].
  apply bind_Raise in H as [H|(ys & st2 & _ & [=])]. eauto.
Qed.

Lemma forM_fails {A : Type} (f : A -> M unit) (fine : A -> Prop)
    (xs : list A) (st : state) (e : exn) :
  (forall x st e, fine x -> f x st = Raise e -> e = RecursionError) ->
  Forall fine xs ->
  forM_ xs f st = Raise e -> e = RecursionError.
Proof.
  intros Hf Hxs. revert st.
  induction Hxs as [|x xs Hx _ IH]; intros st H; [discriminate|].
  simpl in H. apply bind_Raise in H as [H|(y & st1 & _ & H)]; eauto.
Qed.

Lemma getattr_bind_Raise {A : Type} (f : value -> M A) (n : node)
    (name : string) (v : value) (st : state) (e : exn) :
  assoc name (fields n ++ attrs n) = Some v ->
  (f =<< getattr n name) st = Raise e -> f v st = Raise e.
Proof.
  intros Hv H. apply bind_Raise in H as [H|(w & st1 & Hw & H)].
  - unfold getattr in H. rewrite Hv in H. discriminate.
  - apply getattr_Ok in Hw as [Hw ->]. congruence.
Qed.

Lemma read_fails (n : node) (a : access) (f : string) (v : value)
    (st : state) (e : exn) :
  assoc f (fields n ++ attrs n) = Some v ->
  fits a v = true ->
  Forall good (visits_of a v) ->
  read visit n a f st = Raise e -> e = RecursionError.
Proof.
  intros Hv Hfit Hgood. destruct a; simpl in *.
  - unfold getattr. rewrite Hv. discriminate.
  - intros H. apply (getattr_bind_Raise _ _ _ _ _ _ Hv) in H.
    apply Forall_cons in Hgood as [Hgood _].
    eapply visit_value_fails; eassumption.
  - intros H. apply (getattr_bind_Raise _ _ _ _ _ _ Hv) in H.
    eapply visit_optional_fails; [|eassumption].
    intros Hn. rewrite Hn in Hgood. now apply Forall_cons in Hgood.
  - intros H. apply (getattr_bind_Raise _ _ _ _ _ _ Hv) in H.
    destruct v; try discriminate. simpl in Hgood.
    apply bind_Raise in H as [[=]|(l' & st1 & [= <- <-] & H)].
    apply bind_Raise in H as [H|(rs & st2 & _ & [=])].
    eapply (mapM_fails _ good); [|eassumption..].
    intros. eapply visit_value_fails; eassumption.
  - intros H. apply (getattr_bind_Raise _ _ _ _ _ _ Hv) in H.
    destruct v; try discriminate. simpl in Hgood.
    apply bind_Raise in H as [[=]|(l' & st1 & [= <- <-] & H)].
    apply bind_Raise in H as [H|(rs & st2 & _ & [=])].
    eapply (mapM_fails _ (fun x => is_none x = false -> good x));
      [| |eassumption].
    + intros. eapply visit_optional_fails; eassumption.
    + apply Forall_forall. intros x Hx Hn.
      rewrite Forall_forall in Hgood. apply Hgood.
      apply list_elem_of_In, filter_In. split; [now apply list_elem_of_In|].
      now rewrite Hn.
Qed.

Lemma read_entries_fails (n : node) (es : list entry) (st : state) (e : exn) :
  forallb (fun e : entry =>
             match assoc e.2 (fields n ++ attrs n) with
             | Some v => fits e.1.2 v
             | None => false
             end) es = true ->
  Forall good (flat_map (entry_visits n) es) ->
  mapM (read_entry visit n) es st = Raise e -> e = RecursionError.
Proof.
  revert st. induction es as [|[[key a] f] es IH]; intros st Hfit Hgood H;
    [discriminate|].
  simpl in Hfit, Hgood, H. apply andb_prop in Hfit as [Hf Hfit].
  apply Forall_app in Hgood as [Hg Hgood]. unfold entry_visits in Hg.
  simpl in Hg.
  destruct (assoc f (fields n ++ attrs n)) as [v|] eqn:Hv; [|discriminate].
  apply bind_Raise in H as [H|(kv & st1 & _ & H)].
  - unfold read_entry in H. simpl in H.
    apply bind_Raise in H as [H|(w & st1 & _ & [=])].
    eapply read_fails; eassumption.
  - apply bind_Raise in H as [H|(own & st2 & _ & [=])]. eauto.
Qed.

Lemma NodeVisitor_generic_visit_fails (n : node) (st : state) (e : exn) :
  Forall good (flat_map field_visits (fields n)) ->
  NodeVisitor_generic_visit visit n st = Raise e -> e = RecursionError.
Proof.
  unfold NodeVisitor_generic_visit. generalize (fields n) as fs.
  intros fs Hgood.
  apply (forM_fails _ (fun fv => Forall good (field_visits fv))).
  - clear Hgood st e. intros [f v] st0 e. unfold visit_field, field_visits.
    simpl. destruct v; try discriminate.
    + intros Hl. apply (forM_fails _ (fun x => is_ast x = true -> good x)).
      * intros x st1 e1 Hx. destruct x; try discriminate.
        intros H. apply bind_Raise in H as [H|(d & st2 & _ & [=])].
        eapply visit_fails; [|eassumption]. auto.
      * apply Forall_forall. intros x Hx Ha.
        rewrite Forall_forall in Hl. apply Hl.
        apply list_elem_of_In, filter_In. split; [|assumption].
        now apply list_elem_of_In.
    + intros Hg H. apply Forall_cons in Hg as [Hg _].
      apply bind_Raise in H as [H|(d & st2 & _ & [=])]. eauto.
  - induction fs as [|fv fs IH]; [constructor|].
    simpl in Hgood. apply Forall_app in Hgood as [H1 H2].
    constructor; auto.
Qed.

End Fails.

(** X15: on a tree where every node the walk dispatches on is ready for
    its method, the walk raises no [AttributeError] and no [TypeError]:
    the only exception it can raise is [RecursionError]. *)
Theorem visit_fails_by_depth_only (depth : nat) (x : value) (st : state)
    (e : exn) :
  is_ast x = true ->
  Forall (fun n => ready n = true) (dispatched depth x) ->
  visit depth x st = Raise e ->
  e = RecursionError.
Proof.
  revert x st e. induction depth as [|depth IH]; intros x st e Hx Hr H.
  - now injection H as <-.
  - destruct x as [| | | | | | | | |n]; try discriminate.
    cbn [dispatched] in Hr. apply Forall_cons in Hr as [Hn Hr].
    set (good := fun c => is_ast c = true /\
                          Forall (fun n => ready n = true) (dispatched depth c)).
    assert (Hgood : forall c st e, good c -> visit depth c st = Raise e ->
                                   e = RecursionError).
    { intros c st0 e0 (H1 & H2). now apply IH. }
    assert (Hch : Forall good (children n)).
    { apply Forall_forall. intros c Hc. apply list_elem_of_In in Hc.
      split; [eapply ready_children; eassumption|].
      rewrite Forall_forall in Hr |- *. intros m Hm. apply Hr.
      apply list_elem_of_In, in_flat_map. exists c.
      split; [assumption|now apply list_elem_of_In]. }
    rewrite visit_node in H. unfold ready in Hn. unfold children in Hch.
    destruct (assoc (cls n) shapes) as [sh|].
    + apply andb_prop in Hn as [Hfit Hpos].
      apply run_shape_Raise in H as [H|[Hm H]].
      * eapply read_entries_fails; eassumption.
      * rewrite Hm in Hpos. unfold has_position in Hpos. simpl in Hpos.
        rewrite H in Hpos. discriminate.
    + apply generic_visit_fallback_Raise in H as [[st0 H]|H].
      * eapply NodeVisitor_generic_visit_fails; eassumption.
      * unfold has_position in Hn. rewrite H in Hn. discriminate.
Qed.

Lemma visit_fails_by_depth_only_witness :
  visit 3 assign_tree initial = Raise RecursionError.
Proof.
  destruct (visit 3 assign_tree initial) as [[r st']|e] eqn:Hv;
    [vm_compute in Hv; discriminate Hv|].
  f_equal.
  apply (visit_fails_by_depth_only 3 assign_tree initial e); [| |exact Hv].
  - reflexivity.
  - apply (bool_decide_unpack _). vm_compute. reflexivity.
Defined.

(** ** Records without [ast] objects *)

Lemma plain_dict_app (a b : dict) :
  plain (VDict (a ++ b)) = plain (VDict a) && plain (VDict b).
Proof. simpl. apply forallb_app. Qed.

Lemma position_extractor_plain (n : node) (info : dict) :
  forallb (plain_attribute n) position_keys = true ->
  position_extractor n = Ok info ->
  plain (VDict info) = true.
Proof.
  intros Hp Hinfo.
  apply position_extractor_Ok in Hinfo
    as (l & c & el & ec & Hl & Hc & Hel & Hec & ->).
  apply attribute_Ok in Hl, Hc, Hel, Hec.
  unfold plain_attribute in Hp. simpl in Hp.
  rewrite Hl, Hc, Hel, Hec in Hp. simpl.
  destruct (assoc "type_comment" (fields n ++ attrs n)); simpl;
    repeat (apply andb_prop in Hp as [? Hp]);
    repeat (apply andb_true_intro; split); auto.
Qed.

Section Plain.

(** One level of the walk: the records [visit] returns hold no [ast]
    object when the nodes [disp x] copy none. *)
Variable visit : visitor.
Variable disp : value -> list node.

Hypothesis visit_plain : forall x st r st',
  visit x st = Ok (r, st') ->
  Forall (fun n => copies_plain n = true) (disp x) ->
  plain (VDict r) = true.

Let clean (xs : list value) : Prop :=
  Forall (fun n => copies_plain n = true) (flat_map disp xs).

Lemma visit_value_plain (x r : value) (st st' : state) :
  visit_value visit x st = Ok (r, st') -> clean [x] -> plain r = true.
Proof.
  unfold visit_value, clean. simpl. rewrite app_nil_r. intros H Hc.
  apply bind_Ok in H as (d & st1 & Hd & H). apply ret_Ok in H as [-> ->].
  eapply visit_plain; eassumption.
Qed.

Lemma visit_optional_plain (x r : value) (st st' : state) :
  visit_optional visit x st = Ok (r, st') ->
  clean (if is_none x then [] else [x]) -> plain r = true.
Proof.
  unfold visit_optional. destruct (is_none x).
  - intros H _. now apply ret_Ok in H as [-> _].
  - apply visit_value_plain.
Qed.

Lemma mapM_plain (f : value -> M value) (sel : value -> list value)
    (xs rs : list value) (st st' : state) :
  (forall x r st st', f x st = Ok (r, st') -> clean (sel x) ->
                      plain r = true) ->
  mapM f xs st = Ok (rs, st') -> clean (flat_map sel xs) ->
  forallb plain rs = true.
Proof.
  intros Hf. revert rs st.
  induction xs as [|x xs IH]; intros rs st H Hc; simpl in H.
  - now apply ret_Ok in H as [-> _].
  - apply bind_Ok in H as (y & st1 & Hy & H).
    apply bind_Ok in H as (ys & st2 & Hys & H). apply ret_Ok in H as [-> ->].
    simpl in Hc. unfold clean in Hc. rewrite flat_map_app in Hc.
    apply Forall_app in Hc as [Hx Hxs]. simpl.
    rewrite (Hf _ _ _ _ Hy Hx), (IH _ _ Hys Hxs). reflexivity.
Qed.

Lemma read_plain (n : node) (a : access) (f : string) (r : value)
    (st st' : state) :
  read visit n a f st = Ok (r, st') ->
  match a with Raw => plain_attribute n f | _ => true end = true ->
  clean (entry_visits n (f, a, f)) ->
  plain r = true.
Proof.
  unfold entry_visits. simpl. destruct a; simpl.
  - intros H Hp _. apply getattr_Ok in H as [H _].
    unfold plain_attribute in Hp. now rewrite H in Hp.
  - intros H _ Hc. apply getattr_bind_Ok in H as (v & Hv & H).
    apply attribute_Ok in Hv. rewrite Hv in Hc.
    eapply visit_value_plain; eassumption.
  - intros H _ Hc. apply getattr_bind_Ok in H as (v & Hv & H).
    apply attribute_Ok in Hv. rewrite Hv in Hc.
    eapply visit_optional_plain; eassumption.
  - intros H _ Hc. apply getattr_bind_Ok in H as (v & Hv & H).
    apply attribute_Ok in Hv. rewrite Hv in Hc.
    apply list_map_Ok in H as (l & rs & Hl & Hm & ->).
    apply iter_items in Hl as [<- _]. simpl.
    apply (mapM_plain _ (fun x => [x]) _ _ _ _ visit_value_plain Hm).
    now rewrite flat_map_singleton.
  - intros H _ Hc. apply getattr_bind_Ok in H as (v & Hv & H).
    apply attribute_Ok in Hv. rewrite Hv in Hc.
    apply list_map_Ok in H as (l & rs & Hl & Hm & ->).
    apply iter_items in Hl as [<- _]. simpl.
    apply (mapM_plain _ (fun x => if is_none x then [] else [x]) _ _ _ _
             visit_optional_plain Hm).
    now rewrite flat_map_optional.
Qed.

Lemma read_entries_plain (n : node) (es : list entry) (own : dict)
    (st st' : state) :
  mapM (read_entry visit n) es st = Ok (own, st') ->
  forallb (fun e : entry =>
             match e.1.2 with
             | Raw => plain_attribute n e.2
             | _ => true
             end) es = true ->
  clean (flat_map (entry_visits n) es) ->
  plain (VDict own) = true.
Proof.
  revert own st. induction es as [|[[key a] f] es IH]; intros own st H Hp Hc.
  - now apply ret_Ok in H as [-> _].
  - simpl in H, Hp, Hc. apply andb_prop in Hp as [Hpe Hp].
    unfold clean in Hc. rewrite flat_map_app in Hc.
    apply Forall_app in Hc as [Hce Hc].
    apply bind_Ok in H as (kv & st1 & Hkv & H).
    apply bind_Ok in H as (own' & st2 & Hown & H). apply ret_Ok in H as [-> ->].
    unfold read_entry in Hkv. simpl in Hkv.
    apply bind_Ok in Hkv as (v & st3 & Hv & Hkv).
    apply ret_Ok in Hkv as [-> ->].
    simpl. rewrite (read_plain _ _ _ _ _ _ Hv Hpe Hce).
    exact (IH _ _ Hown Hp Hc).
Qed.

End Plain.

(** X16: the record of a walk holds no [ast] object, whatever the tree
    holds, when the attributes that the methods copy as they are (the
    primitive fields and the location) hold none in the nodes the walk
    dispatches on. *)
Theorem record_is_plain (depth : nat) (x : value) (st st' : state) (r : dict) :
  visit depth x st = Ok (r, st') ->
  Forall (fun n => copies_plain n = true) (dispatched depth x) ->
  plain (VDict r) = true.
Proof.
  revert x st st' r.
  induction depth as [|depth IH]; intros x st st' r H Hc; [discriminate|].
  destruct (visit_Ok_node _ _ _ _ _ H) as (depth' & n & [= <-] & ->).
  assert (IH' : forall x st r st', visit depth x st = Ok (r, st') ->
            Forall (fun n => copies_plain n = true) (dispatched depth x) ->
            plain (VDict r) = true) by eauto.
  cbn [dispatched] in Hc. apply Forall_cons in Hc as [Hn Hc].
  unfold copies_plain in Hn. unfold children in Hc.
  destruct (assoc (cls n) shapes) as [sh|] eqn:Hsh.
  - destruct (converted_record_app _ _ _ _ _ _ Hsh H)
      as (depth' & own & info & [= <-] & Hown & _ & Hinfo & ->).
    apply andb_prop in Hn as [Hraw Hpos].
    change (("type", VStr (cls n)) :: own ++ info)
      with ([("type", VStr (cls n))] ++ own ++ info).
    rewrite !plain_dict_app.
    rewrite (read_entries_plain _ _ IH' _ _ _ _ _ Hown Hraw Hc).
    destruct (merges sh); [|now subst info].
    now rewrite (position_extractor_plain _ _ Hpos Hinfo).
  - destruct (visit_fallback_Ok _ _ _ _ _ Hsh H)
      as (depth' & info & _ & _ & Hinfo & ->).
    rewrite plain_dict_app.
    now rewrite (position_extractor_plain _ _ Hn Hinfo).
Qed.

Lemma record_is_plain_witness :
  exists r st',
    visit 5 compare_tree initial = Ok (r, st') /\ plain (VDict r) = true.
Proof.
  eexists _, _. split; [vm_compute; reflexivity|].
  eapply (record_is_plain 5 compare_tree initial).
  - vm_compute. reflexivity.
  - apply (bool_decide_unpack _). vm_compute. reflexivity.
Defined.
